(** * go-naive-queryfilters: query-string filters to SQL, verified model

    A shallow embedding of the Go package [naivequeryfilters] (the file with
    [Build], [getOrderedGetParams], [getValidQueryParams], [splitParamName],
    [newFilterParam], [filterParam.Sql], [buildPhrase], [buildQueryFilters]
    and the error types), followed by the properties proved about it.

    Modelling conventions.
    - A Go [string] is a byte sequence: Rocq's [string] (a list of 8-bit
      [ascii]).  Go compares strings bytewise, as [String.compare] does.
    - [url.Values] (a [map[string][]string]) is a [gmap string (list string)];
      where the program distinguishes a nil map from an empty one (the second
      result of [Build]) the value is an [option]: [None] is Go's [nil].
    - [AllowedColumns] is a [gmap string (string -> string)]: the stored
      functions are pure and not nil.
    - [[]string] and [[]any] holding strings are [list string]; a nil slice
      and an empty slice are both [[]] (the program only takes [len] of them
      and ranges over them).
    - A Go [error] is a value of the inductive type [error]; a nil error is
      [None].  A function returning [(T, error)] whose [T] is the zero value
      whenever the error is not nil returns a sum [error + T].
    - The ordered map of package [omap] is an association list in insertion
      order with distinct keys: [Set] on a present key replaces the data in
      place, on an absent key it appends at the back; [Pairs] returns the
      pairs in that order.  [omap.New] without index functions does not
      fail, so the two returns of its error are left out. *)

From Stdlib Require Import Ascii NArith Lia.
From Stdlib Require String.
From stdpp Require Import base orders option list gmap strings sorting.

(** ** Byte strings: order, search, split, upper-casing *)

(** Go's [<] and [<=] on strings compare bytewise: stdpp's [String.le] is
    [String.leb], the lexicographic order on the byte codes. *)
Definition str_lt : relation string := strict String.le.

(** [strings.Contains(s, substr)]. *)
Fixpoint Contains (s substr : string) : bool :=
  String.prefix substr s ||
  match s with
  | EmptyString => false
  | String _ s' => Contains s' substr
  end.

(** The scan behind [strings.Split] and [strings.Count] for a non-empty
    separator: matches are taken leftmost and do not overlap, so after a match
    the remaining [skip] bytes of the separator are passed over. *)
Fixpoint Split_from (sep : string) (skip : nat) (s : string) : list string :=
  match s with
  | EmptyString => [EmptyString]
  | String c s' =>
      match skip with
      | S n => Split_from sep n s'
      | O =>
          if String.prefix sep s
          then EmptyString :: Split_from sep (String.length sep - 1) s'
          else match Split_from sep 0 s' with
               | seg :: rest => String c seg :: rest
               | [] => [String c EmptyString]
               end
      end
  end.

(** [strings.Split(s, sep)], [sep] not empty. *)
Definition Split (s sep : string) : list string := Split_from sep 0 s.

Fixpoint Count_from (sep : string) (skip : nat) (s : string) : nat :=
  match s with
  | EmptyString => 0
  | String c s' =>
      match skip with
      | S n => Count_from sep n s'
      | O =>
          if String.prefix sep s
          then S (Count_from sep (String.length sep - 1) s')
          else Count_from sep 0 s'
      end
  end.

(** [strings.Count(s, sep)], [sep] not empty: non-overlapping occurrences. *)
Definition Count (s sep : string) : nat := Count_from sep 0 s.

(** [strings.ToUpper] on a byte: the ASCII letters a..z. *)
Definition upper_byte (c : ascii) : ascii :=
  let n := nat_of_ascii c in
  if (97 <=? n)%nat && (n <=? 122)%nat then ascii_of_nat (n - 32) else c.

(** [strings.ToUpper] on ASCII strings, where Go maps the bytes a..z and
    leaves every other byte as it is.  On a string with a byte of 0x80 or
    more Go maps runes with [unicode.ToUpper] instead, which is not modelled:
    there [ToUpper] below differs from the code.  The only call is in
    [buildPhrase], on the token of a parameter; a parameter made by
    [newFilterParam] has a token of the [OPERATORS] table, which is ASCII. *)
Fixpoint ToUpper (s : string) : string :=
  match s with
  | EmptyString => EmptyString
  | String c s' => String (upper_byte c) (ToUpper s')
  end.

(** The test at the head of [strings.ToUpper]: every byte is below
    [utf8.RuneSelf] (0x80). *)
Fixpoint isASCII (s : string) : bool :=
  match s with
  | EmptyString => true
  | String c s' => (nat_of_ascii c <? 128)%nat && isASCII s'
  end.

(** [s[:len(s)-1]]. *)
Definition drop_last_byte (s : string) : string :=
  String.substring 0 (String.length s - 1) s.

(** [strings.Join]-style concatenation, used to state results. *)
Fixpoint join (sep : string) (l : list string) : string :=
  match l with
  | [] => EmptyString
  | [x] => x
  | x :: l' => x +:+ sep +:+ join sep l'
  end.

(** Occurrences of the byte [c] in [s]. *)
Fixpoint count_byte (c : ascii) (s : string) : nat :=
  match s with
  | EmptyString => 0
  | String d s' => (if Ascii.eqb c d then 1 else 0) + count_byte c s'
  end.

(** ** Package omap: the ordered map *)

Definition Omap (D : Type) : Type := list (string * D).

Definition Omap_New {D : Type} : Omap D := [].

Fixpoint Omap_Set {D : Type} (key : string) (data : D) (m : Omap D) : Omap D :=
  match m with
  | [] => [(key, data)]
  | (k, d) :: m' =>
      if String.eqb k key then (key, data) :: m'
      else (k, d) :: Omap_Set key data m'
  end.

Fixpoint Omap_Del {D : Type} (key : string) (m : Omap D) : Omap D :=
  match m with
  | [] => []
  | (k, d) :: m' =>
      if String.eqb k key then m' else (k, d) :: Omap_Del key m'
  end.

Definition Omap_Len {D : Type} (m : Omap D) : nat := length m.

(** [Pairs] returns a fresh slice: later [Set] and [Del] do not change it. *)
Definition Omap_Pairs {D : Type} (m : Omap D) : list (string * D) := m.

Fixpoint Omap_Get {D : Type} (key : string) (m : Omap D) : option D :=
  match m with
  | [] => None
  | (k, d) :: m' => if String.eqb k key then Some d else Omap_Get key m'
  end.

(** ** Errors *)

Inductive error : Type :=
| errAttemptedToPassEmptyFilteringParams
| ErrWrongQueryParamName (ParamName : string)
| ErrWrongOperator (Operator ParamName : string)
| errorString (msg : string).

(** ** Constants *)

Definition OPERATOR_SEPARATOR : string := "__".
Definition OPERATOR_IN : string := "in".
Definition OPERATOR_NOT_IN : string := "not_in".
Definition OPERATOR_LIKE : string := "like".

Definition QUERY_TOKEN_IN : string := "IN".
Definition QUERY_TOKEN_NOT_IN : string := "NOT IN".
Definition QUERY_TOKEN_EQUALS : string := "=".
Definition QUERY_TOKEN_NOT_EQUALS : string := "<>".
Definition QUERY_TOKEN_LIKE : string := "LIKE".

Definition OPERATORS : gmap string string :=
  <[OPERATOR_IN := QUERY_TOKEN_IN]>
    (<[OPERATOR_NOT_IN := QUERY_TOKEN_NOT_IN]>
       (<[OPERATOR_LIKE := QUERY_TOKEN_LIKE]> ∅)).

(** ** Data *)

Record Filter : Type := mkFilter {
  SqlFilters : string;
  PlaceholderValues : list string
}.

(** The zero value [Filter{}]. *)
Definition Filter_zero : Filter := mkFilter "" [].

Record filterParam : Type := mkFilterParam {
  Name : string;
  QueryToken : string;
  Values : list string
}.

Abbreviation AllowedColumns := (gmap string (string -> string)).
Abbreviation url_Values := (gmap string (list string)).

(** ** The program *)

Definition newFilterParam (name operator : string) (values : list string)
  : error + filterParam :=
  if (length values =? 0)%nat then
    inl (errorString "passed empty values to filterParam")
  else if String.eqb operator "" then
    inr (mkFilterParam name QUERY_TOKEN_IN values)
  else if String.eqb operator OPERATOR_LIKE && (1 <? length values)%nat then
    inl (errorString "like operator only supports single value")
  else
    match OPERATORS !! operator with
    | None => inl (ErrWrongOperator operator name)
    | Some queryToken => inr (mkFilterParam name queryToken values)
    end.

Definition buildPhrase (columnName operatorName : string)
    (values : list string) : string :=
  let phrase := columnName +:+ " " +:+ ToUpper operatorName +:+ " (" in
  let phrase := fold_left (fun p (_ : string) => p +:+ "?,") values phrase in
  let phrase := drop_last_byte phrase in
  phrase +:+ ")".

Definition Sql (fp : filterParam) : string :=
  if (length (Values fp) =? 1)%nat && String.eqb (QueryToken fp) QUERY_TOKEN_IN
  then Name fp +:+ " " +:+ QUERY_TOKEN_EQUALS +:+ " ?"
  else if (length (Values fp) =? 1)%nat
          && String.eqb (QueryToken fp) QUERY_TOKEN_NOT_IN
  then Name fp +:+ " " +:+ QUERY_TOKEN_NOT_EQUALS +:+ " ?"
  else if String.eqb (QueryToken fp) QUERY_TOKEN_LIKE
  then "LOWER(" +:+ Name fp +:+ ") " +:+ QUERY_TOKEN_LIKE
       +:+ " CONCAT('%', ?, '%')"
  else buildPhrase (Name fp) (QueryToken fp) (Values fp).

Definition splitParamName (paramName : string) (paramValues : list string)
  : error + filterParam :=
  let res := Split paramName OPERATOR_SEPARATOR in
  if negb (Contains paramName OPERATOR_SEPARATOR) then
    newFilterParam (nth 0 res "") "" paramValues
  else if negb (length res =? 2)%nat then
    inl (ErrWrongQueryParamName paramName)
  else
    let operator := nth 1 res "" in
    match OPERATORS !! operator with
    | None => inl (ErrWrongOperator operator paramName)
    | Some _ => newFilterParam (nth 0 res "") (nth 1 res "") paramValues
    end.

(** [slices.Sort(slices.Collect(maps.Keys(getParams)))]: the keys of a map are
    distinct, so every sorting algorithm returns the same slice. *)
Definition sortedKeys (getParams : url_Values) : list string :=
  merge_sort String.le (map_to_list getParams).*1.

Definition getOrderedGetParams (getParams : url_Values)
  : Omap (list string) :=
  fold_left
    (fun orderedGetParams key =>
       Omap_Set key (default [] (getParams !! key)) orderedGetParams)
    (sortedKeys getParams) Omap_New.

(** The state the loop of [getValidQueryParams] works on. *)
Record scanState : Type := mkScanState {
  st_getParams : Omap (list string);
  st_validParams : Omap filterParam;
  st_removedParams : url_Values
}.

(** The loop of [getValidQueryParams] over the slice [getParams.Pairs()]:
    [inl] is the early return with an error. *)
Fixpoint scanPairs (filterAllowedColumnNames : AllowedColumns)
    (pairs : list (string * list string)) (st : scanState)
  : (scanState * error) + scanState :=
  match pairs with
  | [] => inr st
  | (querystringFilterParamName, filterParamValues) :: pairs' =>
      match splitParamName querystringFilterParamName filterParamValues with
      | inl err => inl (st, err)
      | inr fp =>
          let st' :=
            match filterAllowedColumnNames !! Name fp with
            | Some colNameConverterFunc =>
                let fp' := mkFilterParam (colNameConverterFunc (Name fp))
                             (QueryToken fp) (Values fp) in
                mkScanState (st_getParams st)
                  (Omap_Set (Name fp') fp' (st_validParams st))
                  (st_removedParams st)
            | None =>
                mkScanState (st_getParams st) (st_validParams st)
                  (<[querystringFilterParamName := filterParamValues]>
                     (st_removedParams st))
            end in
          scanPairs filterAllowedColumnNames pairs'
            (mkScanState
               (Omap_Del querystringFilterParamName (st_getParams st'))
               (st_validParams st') (st_removedParams st'))
      end
  end.

Definition getValidQueryParams (filterAllowedColumnNames : AllowedColumns)
    (getParams : Omap (list string))
  : Omap filterParam * option url_Values * option error :=
  let validParams : Omap filterParam := Omap_New in
  if (Omap_Len getParams =? 0)%nat then
    (validParams, None, Some errAttemptedToPassEmptyFilteringParams)
  else
    let removedParams : url_Values := ∅ in
    match scanPairs filterAllowedColumnNames (Omap_Pairs getParams)
            (mkScanState getParams validParams removedParams) with
    | inl (st, err) => (st_validParams st, Some (st_removedParams st), Some err)
    | inr st =>
        let removedParams :=
          if (size (st_removedParams st) =? 0)%nat then None
          else Some (st_removedParams st) in
        (st_validParams st, removedParams, None)
    end.

(** One iteration of the loop of [buildQueryFilters]; the state is
    [(queryFilters, queryParamsValues, filtersCount)] and [len] is
    [validParams.Len()]. *)
Definition buildQueryFilters_step (len : nat)
    (st : string * list string * nat) (mapPair : string * filterParam)
  : string * list string * nat :=
  let '(queryFilters, queryParamsValues, filtersCount) := st in
  let queryFilters := queryFilters +:+ Sql (snd mapPair) in
  let filtersCount := (filtersCount + 1)%nat in
  let queryFilters :=
    if (filtersCount <? len)%nat then queryFilters +:+ " AND "
    else queryFilters in
  (queryFilters, (queryParamsValues ++ Values (snd mapPair))%list,
   filtersCount).

Definition buildQueryFilters (validParams : Omap filterParam) : Filter :=
  let '(queryFilters, queryParamsValues, _) :=
    fold_left (buildQueryFilters_step (Omap_Len validParams))
      (Omap_Pairs validParams) ("", [], 0%nat) in
  mkFilter queryFilters queryParamsValues.

Definition Build (filterAllowedColumnNames : AllowedColumns)
    (getParams : url_Values) : Filter * option url_Values * option error :=
  let orderedGetParams := getOrderedGetParams getParams in
  let '(validParams, invalidParams, err) :=
    getValidQueryParams filterAllowedColumnNames orderedGetParams in
  match err with
  | Some e => (Filter_zero, invalidParams, Some e)
  | None => (buildQueryFilters validParams, invalidParams, None)
  end.

(** ** The repository's test data *)

Definition whitelist : AllowedColumns :=
  <["col1" := fun s => s]> (<["col2" := fun s => s]> ∅).

Definition example_whitelist : AllowedColumns :=
  <["col1" := fun _ => "table_name.col1"]> (<["col2" := fun s => s]> ∅).

(** A whitelist with a column whose name ends in an underscore. *)
Definition underscore_whitelist : AllowedColumns := {["a_" := fun s => s]}.

(** A whitelist that rewrites a column to a name holding a question mark. *)
Definition question_whitelist : AllowedColumns := {["q" := fun _ => "q?"]}.

(** The request of the package example and README. *)
Definition example_params : url_Values :=
  <["col1__in" := ["1"; "2"]]>
    (<["col2__not_in" := ["1"]]> (<["col3" := ["val"]]> ∅)).

(** ** Views of the program used to state its properties *)

(** The column a parameter key names: [res[0]] in [splitParamName]. *)
Definition colOf (paramName : string) : string :=
  nth 0 (Split paramName OPERATOR_SEPARATOR) "".

(** The column name after the whitelist's rewrite, for a whitelisted key. *)
Definition finalName (wl : AllowedColumns) (paramName : string)
  : option string :=
  (fun f => f (colOf paramName)) <$> wl !! colOf paramName.

(** The pairs [getOrderedGetParams] stores, in order. *)
Definition orderedPairs (getParams : url_Values)
  : list (string * list string) :=
  (fun key => (key, default [] (getParams !! key))) <$> sortedKeys getParams.

(** What one iteration of the loop of [getValidQueryParams] does to
    [validParams] and to [removedParams] when the key parses. *)
Definition valid_step (wl : AllowedColumns) (V : Omap filterParam)
    (p : string * list string) : Omap filterParam :=
  match splitParamName p.1 p.2 with
  | inr fp =>
      match wl !! Name fp with
      | Some f =>
          Omap_Set (f (Name fp))
            (mkFilterParam (f (Name fp)) (QueryToken fp) (Values fp)) V
      | None => V
      end
  | inl _ => V
  end.

Definition removed_step (wl : AllowedColumns) (R : url_Values)
    (p : string * list string) : url_Values :=
  match splitParamName p.1 p.2 with
  | inr fp =>
      match wl !! Name fp with
      | Some _ => R
      | None => <[p.1 := p.2]> R
      end
  | inl _ => R
  end.

(** The ordered map [Build] hands to [buildQueryFilters]. *)
Definition validParamsOf (wl : AllowedColumns) (getParams : url_Values)
  : Omap filterParam :=
  (getValidQueryParams wl (getOrderedGetParams getParams)).1.1.

(** The final column names in the order their predicates stand in the
    fragment. *)
Definition fragmentColumns (wl : AllowedColumns) (getParams : url_Values)
  : list string :=
  (Omap_Pairs (validParamsOf wl getParams)).*1.

(** A key parses: [splitParamName] returns a nil error. *)
Definition parses (paramName : string) (paramValues : list string) : Prop :=
  ∃ fp, splitParamName paramName paramValues = inr fp.

(** What a constructed parameter looks like: the data model's invariants. *)
Definition wf_param (fp : filterParam) : Prop :=
  Values fp ≠ []
  ∧ (QueryToken fp = QUERY_TOKEN_IN ∨ QueryToken fp = QUERY_TOKEN_NOT_IN
     ∨ QueryToken fp = QUERY_TOKEN_LIKE)
  ∧ (QueryToken fp = QUERY_TOKEN_LIKE → length (Values fp) = 1).

(** The error of the first pair, in order, that does not parse, and the pairs
    before it. *)
Fixpoint firstError (pairs : list (string * list string)) : option error :=
  match pairs with
  | [] => None
  | (k, vs) :: pairs' =>
      match splitParamName k vs with
      | inl err => Some err
      | inr _ => firstError pairs'
      end
  end.

Fixpoint okPrefix (pairs : list (string * list string))
  : list (string * list string) :=
  match pairs with
  | [] => []
  | (k, vs) :: pairs' =>
      match splitParamName k vs with
      | inl _ => []
      | inr _ => (k, vs) :: okPrefix pairs'
      end
  end.

(** The scan of [getValidQueryParams] gets as far as the key [k]: every key of
    the request that sorts before [k] parses. *)
Definition reached (m : url_Values) (k : string) : Prop :=
  ∀ k' vs', m !! k' = Some vs' → str_lt k' k → parses k' vs'.

(** [nil] for an empty map: the end of [getValidQueryParams]. *)
Definition nil_if_empty (R : url_Values) : option url_Values :=
  if (size R =? 0)%nat then None else Some R.

(** The names of [l] in order, each at its first occurrence only: the keys
    an ordered map has after [Set] with the names of [l] one by one. *)
Definition keep_first_step (acc : list string) (n : string) : list string :=
  if decide (n ∈ acc) then acc else acc ++ [n].

Definition keep_first (l : list string) : list string :=
  fold_left keep_first_step l [].

(** The last byte of [s], if any. *)
Fixpoint last_byte (s : string) : option ascii :=
  match s with
  | EmptyString => None
  | String a EmptyString => Some a
  | String _ s' => last_byte s'
  end.

(** ** The rest of the package: error messages, and views for its properties *)

(** The [Error()] methods of [ErrWrongQueryParamName] and [ErrWrongOperator]
    ([%v] prints a string as it is), and the messages of the errors made with
    [errors.New] and [fmt.Errorf]. *)
Definition Error (e : error) : string :=
  match e with
  | errAttemptedToPassEmptyFilteringParams =>
      "getValidQueryParams not accepting empty filtering values"
  | ErrWrongQueryParamName paramName =>
      "wrong filtering param name: " +:+ paramName
  | ErrWrongOperator operator paramName =>
      "wrong filtering operator name '" +:+ operator +:+ "' in parameter '"
      +:+ paramName +:+ "' "
  | errorString msg => msg
  end.

(** The entry the loop of [getValidQueryParams] sets in [validParams] for a
    pair, if any. *)
Definition entryOf (wl : AllowedColumns) (p : string * list string)
  : option (string * filterParam) :=
  match splitParamName p.1 p.2 with
  | inr fp =>
      match wl !! Name fp with
      | Some f =>
          Some (f (Name fp),
                mkFilterParam (f (Name fp)) (QueryToken fp) (Values fp))
      | None => None
      end
  | inl _ => None
  end.

(** The parameters of a request whose column is whitelisted. *)
Definition whitelisted_part (wl : AllowedColumns) (m : url_Values)
  : url_Values :=
  filter (fun kv : string * list string => is_Some (wl !! colOf kv.1)) m.

(** A pair, a parameter and an entry of [validParams] with [g] applied to
    every value. *)
Definition map_pair (g : string → string) (p : string * list string)
  : string * list string := (p.1, g <$> p.2).

Definition map_param (g : string → string) (fp : filterParam) : filterParam :=
  mkFilterParam (Name fp) (QueryToken fp) (g <$> Values fp).

Definition map_entry (g : string → string) (e : string * filterParam)
  : string * filterParam := (e.1, map_param g e.2).

(** A request, and a result of [Build], with [g] applied to every value. *)
Definition map_values (g : string → string) (m : url_Values) : url_Values :=
  (fun vs : list string => g <$> vs) <$> m.

Definition map_result (g : string → string)
    (r : Filter * option url_Values * option error)
  : Filter * option url_Values * option error :=
  (mkFilter (SqlFilters r.1.1) (g <$> PlaceholderValues r.1.1),
   option_map (map_values g) r.1.2,
   r.2).

(** * Properties *)

(** ** Byte strings *)

Section strings.
Implicit Types s t u : string.

Lemma str_app_nil_l s : "" +:+ s = s.
Proof. reflexivity. Qed.

Lemma str_app_cons a s t : String a s +:+ t = String a (s +:+ t).
Proof. reflexivity. Qed.

Lemma str_app_nil_r s : s +:+ "" = s.
Proof. induction s as [|a s IH]; [done|]. by rewrite str_app_cons, IH. Qed.

Lemma str_app_assoc s t u : (s +:+ t) +:+ u = s +:+ t +:+ u.
Proof. induction s as [|a s IH]; [done|]. by rewrite !str_app_cons, IH. Qed.

Lemma str_length_app s t :
  String.length (s +:+ t) = String.length s + String.length t.
Proof. induction s as [|a s IH]; [done|]. rewrite str_app_cons. simpl. lia. Qed.

Lemma count_byte_app c s t :
  count_byte c (s +:+ t) = count_byte c s + count_byte c t.
Proof.
  induction s as [|a s IH]; [done|]. rewrite str_app_cons. simpl. lia.
Qed.

Lemma substring_0_length s t :
  String.substring 0 (String.length s) (s +:+ t) = s.
Proof.
  induction s as [|a s IH].
  - rewrite str_app_nil_l. by destruct t.
  - rewrite str_app_cons. simpl. by rewrite IH.
Qed.

Lemma drop_last_byte_snoc s c : drop_last_byte (s +:+ String c "") = s.
Proof.
  unfold drop_last_byte. rewrite str_length_app. simpl.
  replace (String.length s + 1 - 1) with (String.length s) by lia.
  apply substring_0_length.
Qed.

Lemma str_lt_spec s t : str_lt s t ↔ String.le s t ∧ s ≠ t.
Proof.
  unfold str_lt, strict. split.
  - intros [Hle Hn]. split; [done|]. intros ->. by apply Hn.
  - intros [Hle Hne]. split; [done|]. intros Hle'.
    apply Hne. by apply (anti_symm String.le).
Qed.

Lemma str_lt_irrefl s : ¬ str_lt s s.
Proof. intros [_ H]. by apply H. Qed.

End strings.

(** ** Splitting a parameter key *)

Section split.

Lemma prefix_sep s :
  String.prefix OPERATOR_SEPARATOR s = true ↔
  ∃ s', s = "__" +:+ s'.
Proof.
  split.
  - unfold OPERATOR_SEPARATOR.
    destruct s as [|a [|b s]]; cbn [String.prefix]; [done| |].
    + by destruct (ascii_dec "_" a).
    + destruct (ascii_dec "_" a) as [<-|]; [|done].
      destruct (ascii_dec "_" b) as [<-|]; [|done].
      intros _. by exists s.
  - intros [s' ->]. unfold OPERATOR_SEPARATOR.
    change ("__" +:+ s') with (String "_" (String "_" s')).
    cbn [String.prefix].
    destruct (ascii_dec "_" "_"); [by destruct s'|done].
Qed.

(** Without the separator the key is one segment ... *)
Lemma Split_no_sep s :
  Contains s OPERATOR_SEPARATOR = false → Split s OPERATOR_SEPARATOR = [s].
Proof.
  unfold Split. induction s as [|a s IH]; [done|].
  intros H. cbn [Contains] in H. apply orb_false_iff in H as [Hp Hc].
  cbn [Split_from]. rewrite Hp, (IH Hc). done.
Qed.

Lemma Split_from_length skip s :
  length (Split_from OPERATOR_SEPARATOR skip s)
  = S (Count_from OPERATOR_SEPARATOR skip s).
Proof.
  revert skip. induction s as [|a s IH]; intros skip; [done|].
  cbn [Split_from Count_from]. destruct skip as [|n]; [|apply IH].
  destruct (String.prefix _ _).
  - cbn [length]. by rewrite IH.
  - specialize (IH 0). destruct (Split_from _ 0 s); simpl in *; lia.
Qed.

(** ... the segments are one more than the separator's occurrences ... *)
Lemma Split_length s :
  length (Split s OPERATOR_SEPARATOR) = S (Count s OPERATOR_SEPARATOR).
Proof. apply Split_from_length. Qed.

(** ... and two or more segments mean the separator occurs. *)
Lemma Split_two_Contains s :
  1 < length (Split s OPERATOR_SEPARATOR) →
  Contains s OPERATOR_SEPARATOR = true.
Proof.
  intros H. destruct (Contains s OPERATOR_SEPARATOR) eqn:E; [done|].
  rewrite (Split_no_sep _ E) in H. simpl in H. lia.
Qed.

(** A column with no separator inside and no underscore at its end is
    split off a following [__operator] unchanged. *)
Lemma Split_col_op c op :
  Contains c OPERATOR_SEPARATOR = false →
  last_byte c ≠ Some "_"%char →
  Contains op OPERATOR_SEPARATOR = false →
  Split (c +:+ "__" +:+ op) OPERATOR_SEPARATOR = [c; op].
Proof.
  intros Hc Hend Hop. unfold Split.
  induction c as [|a c IH].
  - rewrite str_app_nil_l.
    change ("__" +:+ op) with (String "_" (String "_" op)).
    cbn [Split_from]. replace (String.prefix _ _) with true
      by (symmetry; apply prefix_sep; by exists op).
    simpl. destruct op as [|b op]; [done|].
    fold (Split (String b op) OPERATOR_SEPARATOR).
    by rewrite (Split_no_sep _ Hop).
  - cbn [Contains] in Hc. apply orb_false_iff in Hc as [Hp Hc].
    rewrite str_app_cons. cbn [Split_from].
    destruct (String.prefix OPERATOR_SEPARATOR
                (String a (c +:+ "__" +:+ op))) eqn:Hp'.
    + exfalso. apply prefix_sep in Hp' as [s' Hs'].
      change ("__" +:+ s') with (String "_" (String "_" s')) in Hs'.
      injection Hs' as -> Hs'. destruct c as [|b c].
      * by apply Hend.
      * rewrite str_app_cons in Hs'. injection Hs' as -> Hs'.
        assert (String.prefix OPERATOR_SEPARATOR (String "_" (String "_" c))
                = true) as Hp''
          by (apply prefix_sep; by exists c).
        congruence.
    + rewrite IH; [done|done|].
      destruct c as [|b c]; [done|]. exact Hend.
Qed.

End split.

(** ** The operator table and the construction of a parameter *)

Section parse.

Lemma OPERATORS_None op :
  OPERATORS !! op = None ↔
  op ≠ OPERATOR_IN ∧ op ≠ OPERATOR_NOT_IN ∧ op ≠ OPERATOR_LIKE.
Proof.
  unfold OPERATORS. rewrite !lookup_insert_None, lookup_empty.
  intuition congruence.
Qed.

Lemma OPERATORS_Some op tok :
  OPERATORS !! op = Some tok →
  (op = OPERATOR_IN ∧ tok = QUERY_TOKEN_IN)
  ∨ (op = OPERATOR_NOT_IN ∧ tok = QUERY_TOKEN_NOT_IN)
  ∨ (op = OPERATOR_LIKE ∧ tok = QUERY_TOKEN_LIKE).
Proof.
  unfold OPERATORS. rewrite !lookup_insert_Some, lookup_empty.
  intuition (subst; auto; congruence).
Qed.

Lemma newFilterParam_inr name op vs fp :
  newFilterParam name op vs = inr fp →
  Name fp = name ∧ Values fp = vs ∧ wf_param fp.
Proof.
  unfold newFilterParam, wf_param.
  destruct (Nat.eqb_spec (length vs) 0) as [|Hlen]; [done|].
  assert (vs ≠ []) by (by intros ->).
  destruct (String.eqb_spec op "") as [->|Hop].
  { intros [= <-]. simpl. split_and!; [done..|by left|done]. }
  destruct (String.eqb_spec op OPERATOR_LIKE) as [->|Hlike]; simpl.
  - destruct (Nat.ltb_spec 1 (length vs)); [done|].
    change (OPERATORS !! OPERATOR_LIKE) with (Some QUERY_TOKEN_LIKE).
    intros [= <-]. simpl. split_and!; auto. intros _. lia.
  - destruct (OPERATORS !! op) as [tok|] eqn:E; [|done].
    intros [= <-]. simpl. apply OPERATORS_Some in E.
    split_and!; [done..|intuition|].
    intros ->. destruct E as [[_ ?]|[[_ ?]|[? _]]]; done.
Qed.

Lemma splitParamName_inr k vs fp :
  splitParamName k vs = inr fp →
  Name fp = colOf k ∧ Values fp = vs ∧ wf_param fp.
Proof.
  unfold splitParamName, colOf.
  destruct (Contains k OPERATOR_SEPARATOR); simpl.
  - destruct (length (Split k OPERATOR_SEPARATOR) =? 2); simpl; [|done].
    destruct (OPERATORS !! _); [|done]. apply newFilterParam_inr.
  - apply newFilterParam_inr.
Qed.

(** A plain key is the column itself with the implicit operator IN. *)
Lemma splitParamName_plain k vs :
  Contains k OPERATOR_SEPARATOR = false → vs ≠ [] →
  splitParamName k vs = inr (mkFilterParam k QUERY_TOKEN_IN vs)
  ∧ colOf k = k.
Proof.
  intros Hc Hvs. unfold splitParamName, colOf.
  rewrite Hc, (Split_no_sep _ Hc). simpl. split; [|done].
  unfold newFilterParam. by destruct vs.
Qed.

Lemma splitParamName_op k c op tok vs :
  Split k OPERATOR_SEPARATOR = [c; op] →
  OPERATORS !! op = Some tok → vs ≠ [] →
  (op = OPERATOR_LIKE → length vs = 1) →
  splitParamName k vs = inr (mkFilterParam c tok vs) ∧ colOf k = c.
Proof.
  intros Hs Hop Hvs Hlike. unfold splitParamName, colOf.
  rewrite Split_two_Contains by (rewrite Hs; simpl; lia).
  rewrite Hs. simpl. rewrite Hop. split; [|done].
  unfold newFilterParam. destruct vs as [|v vs]; [done|]. simpl.
  destruct (String.eqb_spec op "") as [->|_]; [done|].
  destruct (String.eqb_spec op OPERATOR_LIKE) as [E|_]; simpl.
  - specialize (Hlike E). simpl in Hlike.
    destruct vs; [|simpl in Hlike; lia]. simpl. by rewrite Hop.
  - by rewrite Hop.
Qed.

Lemma splitParamName_like_many k c vs :
  Split k OPERATOR_SEPARATOR = [c; OPERATOR_LIKE] → 1 < length vs →
  splitParamName k vs
  = inl (errorString "like operator only supports single value").
Proof.
  intros Hs Hlen. unfold splitParamName.
  rewrite Split_two_Contains by (rewrite Hs; simpl; lia).
  rewrite Hs. simpl. unfold newFilterParam.
  destruct (Nat.eqb_spec (length vs) 0); [lia|]. simpl.
  by destruct (Nat.ltb_spec 1 (length vs)); [|lia].
Qed.

Lemma splitParamName_wrong_name k vs :
  2 < length (Split k OPERATOR_SEPARATOR) →
  splitParamName k vs = inl (ErrWrongQueryParamName k).
Proof.
  intros H. unfold splitParamName.
  rewrite Split_two_Contains by lia. simpl.
  by destruct (Nat.eqb_spec (length (Split k OPERATOR_SEPARATOR)) 2); [lia|].
Qed.

Lemma splitParamName_wrong_operator k c op vs :
  Split k OPERATOR_SEPARATOR = [c; op] → OPERATORS !! op = None →
  splitParamName k vs = inl (ErrWrongOperator op k).
Proof.
  intros Hs Hop. unfold splitParamName.
  rewrite Split_two_Contains by (rewrite Hs; simpl; lia).
  rewrite Hs. simpl. by rewrite Hop.
Qed.

End parse.

(** ** The single-parameter builder *)

Section sql.

Lemma placeholders_snoc n :
  join "," (replicate (S n) "?") +:+ ","
  = String.concat "" (replicate (S n) "?,").
Proof.
  induction n as [|n IH]; [done|].
  change (replicate (S (S n)) "?") with ("?" :: replicate (S n) "?").
  change (replicate (S (S n)) "?,") with ("?," :: replicate (S n) "?,").
  cbn [join String.concat]. cbn [replicate] in *.
  rewrite !str_app_assoc. by rewrite IH.
Qed.

Lemma buildPhrase_loop (values : list string) phrase :
  fold_left (fun p (_ : string) => p +:+ "?,") values phrase
  = phrase +:+ String.concat "" (replicate (length values) "?,").
Proof.
  revert phrase. induction values as [|v values IH]; intros phrase.
  - by rewrite str_app_nil_r.
  - cbn [fold_left length]. rewrite IH, str_app_assoc. f_equal.
    destruct values; [done|]. cbn [length replicate String.concat].
    by rewrite str_app_nil_l.
Qed.

(** [buildPhrase] on at least one value: the placeholders are separated by
    commas, none trails, and the list is closed. *)
Lemma buildPhrase_closed columnName operatorName values :
  values ≠ [] →
  buildPhrase columnName operatorName values
  = columnName +:+ " " +:+ ToUpper operatorName +:+ " ("
    +:+ join "," (replicate (length values) "?") +:+ ")".
Proof.
  intros Hv. unfold buildPhrase. rewrite buildPhrase_loop.
  destruct values as [|v values]; [done|]. cbn [length].
  rewrite <- placeholders_snoc.
  rewrite <- !str_app_assoc. rewrite drop_last_byte_snoc.
  by rewrite !str_app_assoc.
Qed.

Lemma count_placeholders n :
  count_byte "?" (join "," (replicate n "?")) = n.
Proof.
  induction n as [|n IH]; [done|]. destruct n as [|n]; [done|].
  change (replicate (S (S n)) "?") with ("?" :: replicate (S n) "?").
  cbn [join]. cbn [replicate] in *.
  rewrite !count_byte_app, IH. done.
Qed.

Lemma Sql_single_IN fp :
  length (Values fp) = 1 → QueryToken fp = QUERY_TOKEN_IN →
  Sql fp = Name fp +:+ " = ?".
Proof. intros Hl Ht. unfold Sql. by rewrite Hl, Ht. Qed.

Lemma Sql_single_NOT_IN fp :
  length (Values fp) = 1 → QueryToken fp = QUERY_TOKEN_NOT_IN →
  Sql fp = Name fp +:+ " <> ?".
Proof. intros Hl Ht. unfold Sql. by rewrite Hl, Ht. Qed.

Lemma Sql_LIKE fp :
  QueryToken fp = QUERY_TOKEN_LIKE →
  Sql fp = "LOWER(" +:+ Name fp +:+ ") LIKE CONCAT('%', ?, '%')".
Proof.
  intros Ht. unfold Sql. rewrite Ht.
  by destruct (length (Values fp) =? 1).
Qed.

Lemma Sql_many fp :
  2 ≤ length (Values fp) →
  QueryToken fp = QUERY_TOKEN_IN ∨ QueryToken fp = QUERY_TOKEN_NOT_IN →
  Sql fp = Name fp +:+ " " +:+ QueryToken fp +:+ " ("
           +:+ join "," (replicate (length (Values fp)) "?") +:+ ")"
  ∧ ToUpper (QueryToken fp) = QueryToken fp.
Proof.
  intros Hl Ht. unfold Sql.
  destruct (Nat.eqb_spec (length (Values fp)) 1); [lia|]. simpl.
  assert (Values fp ≠ []) by (intros E; rewrite E in Hl; simpl in Hl; lia).
  destruct Ht as [Ht|Ht]; rewrite Ht; simpl;
    (split; [|done]); by rewrite buildPhrase_closed.
Qed.

(** The ['?'] bytes of a constructed parameter's fragment: one per value,
    and those the column name itself contains. *)
Lemma Sql_count fp :
  wf_param fp →
  count_byte "?" (Sql fp)
  = length (Values fp) + count_byte "?" (Name fp).
Proof.
  intros (Hv & Ht & Hlike).
  destruct (decide (length (Values fp) = 1)) as [H1|H1].
  - destruct Ht as [Ht|[Ht|Ht]].
    + rewrite Sql_single_IN by done. rewrite count_byte_app, H1.
      change (count_byte "?" " = ?") with 1. lia.
    + rewrite Sql_single_NOT_IN by done. rewrite count_byte_app, H1.
      change (count_byte "?" " <> ?") with 1. lia.
    + rewrite Sql_LIKE by done. rewrite !count_byte_app, H1.
      change (count_byte "?" "LOWER(") with 0.
      change (count_byte "?" ") LIKE CONCAT('%', ?, '%')") with 1. lia.
  - assert (2 ≤ length (Values fp)).
    { destruct (Values fp) as [|? [|? ?]]; simpl in *; try done; lia. }
    destruct Ht as [Ht|[Ht|Ht]]; [| |specialize (Hlike Ht); lia].
    + destruct (Sql_many fp) as [-> _]; [done|by left|].
      rewrite !count_byte_app, count_placeholders, Ht.
      change (count_byte "?" " ") with 0.
      change (count_byte "?" QUERY_TOKEN_IN) with 0.
      change (count_byte "?" " (") with 0.
      change (count_byte "?" ")") with 0. lia.
    + destruct (Sql_many fp) as [-> _]; [done|by right|].
      rewrite !count_byte_app, count_placeholders, Ht.
      change (count_byte "?" " ") with 0.
      change (count_byte "?" QUERY_TOKEN_NOT_IN) with 0.
      change (count_byte "?" " (") with 0.
      change (count_byte "?" ")") with 0. lia.
Qed.

End sql.

(** ** The ordered map *)

Section omap.
Context {D : Type}.
Implicit Types (m : Omap D) (k : string) (d : D).

Lemma Omap_Set_fresh k d m :
  k ∉ m.*1 → Omap_Set k d m = m ++ [(k, d)].
Proof.
  induction m as [|[k' d'] m IH]; [done|]. cbn [Omap_Set fmap list_fmap].
  rewrite not_elem_of_cons. intros [Hne Hm]. simpl in Hne.
  destruct (String.eqb_spec k' k); [done|]. by rewrite IH.
Qed.

Lemma Omap_Set_present k d m :
  k ∈ m.*1 → (Omap_Set k d m).*1 = m.*1.
Proof.
  induction m as [|[k' d'] m IH]; [by intros ?%elem_of_nil|].
  cbn [Omap_Set fmap list_fmap]. simpl.
  destruct (String.eqb_spec k' k) as [->|Hne]; [done|].
  rewrite elem_of_cons. intros [?|Hin]; [done|].
  cbn [fmap list_fmap]. simpl. f_equal. by apply IH.
Qed.

Lemma Omap_Set_keys k d m :
  (Omap_Set k d m).*1 = if decide (k ∈ m.*1) then m.*1 else m.*1 ++ [k].
Proof.
  case_decide as H.
  - by apply Omap_Set_present.
  - rewrite Omap_Set_fresh by done. by rewrite fmap_app.
Qed.

Lemma Omap_Set_NoDup k d m : NoDup m.*1 → NoDup (Omap_Set k d m).*1.
Proof.
  intros Hnd. rewrite Omap_Set_keys. case_decide; [done|].
  apply NoDup_app. split_and!; [done| |apply NoDup_singleton].
  intros x Hx ->%list_elem_of_singleton. done.
Qed.

Lemma Omap_Get_Set k d m k' :
  Omap_Get k' (Omap_Set k d m)
  = if decide (k = k') then Some d else Omap_Get k' m.
Proof.
  induction m as [|[k0 d0] m IH]; cbn [Omap_Set Omap_Get].
  - destruct (String.eqb_spec k k'); by case_decide.
  - destruct (String.eqb_spec k0 k) as [->|Hne]; cbn [Omap_Get].
    + destruct (String.eqb_spec k k'); by case_decide.
    + rewrite IH. destruct (String.eqb_spec k0 k'); [|done].
      case_decide; [congruence|done].
Qed.

Lemma Omap_Get_Some k d m :
  Omap_Get k m = Some d → (k, d) ∈ m.
Proof.
  induction m as [|[k0 d0] m IH]; [done|]. cbn [Omap_Get].
  destruct (String.eqb_spec k0 k) as [->|Hne].
  - intros [= ->]. apply list_elem_of_here.
  - intros H. apply list_elem_of_further. by apply IH.
Qed.

(** Setting distinct fresh keys one after the other appends them. *)
Lemma Omap_Set_fold (g : string → D) (ks : list string) m :
  NoDup ks → (∀ k, k ∈ ks → k ∉ m.*1) →
  fold_left (fun om k => Omap_Set k (g k) om) ks m
  = m ++ ((fun k => (k, g k)) <$> ks).
Proof.
  revert m. induction ks as [|k ks IH]; intros m Hnd Hfresh.
  - by rewrite app_nil_r.
  - apply NoDup_cons in Hnd as [Hk Hnd]. cbn [fold_left].
    rewrite Omap_Set_fresh by (apply Hfresh; apply list_elem_of_here).
    rewrite IH; [by rewrite <- app_assoc|done|].
    intros k' Hk'. rewrite fmap_app, elem_of_app. intros [Hin|Hin].
    + revert Hin. apply Hfresh. by apply list_elem_of_further.
    + apply list_elem_of_singleton in Hin. simpl in Hin. by subst.
Qed.

End omap.

(** ** Deterministic ordering *)

Lemma StronglySorted_sublist {A} (R : relation A) (l1 l2 : list A) :
  l1 `sublist_of` l2 → StronglySorted R l2 → StronglySorted R l1.
Proof.
  induction 1 as [|x l1 l2 Hsub IH|x l1 l2 Hsub IH]; intros Hs.
  - constructor.
  - apply StronglySorted_inv in Hs as [Hs Hall]. constructor; [by apply IH|].
    rewrite Forall_forall in *. intros y Hy. apply Hall.
    by eapply elem_of_sublist.
  - apply StronglySorted_inv in Hs as [Hs _]. by apply IH.
Qed.

Section ordering.
Implicit Types (m : url_Values) (k : string).

Lemma sortedKeys_Permutation m : sortedKeys m ≡ₚ (map_to_list m).*1.
Proof. apply merge_sort_Permutation. Qed.

Lemma sortedKeys_NoDup m : NoDup (sortedKeys m).
Proof.
  rewrite sortedKeys_Permutation. apply NoDup_fst_map_to_list.
Qed.

Lemma sortedKeys_elem m k : k ∈ sortedKeys m ↔ is_Some (m !! k).
Proof.
  rewrite sortedKeys_Permutation, list_elem_of_fmap. split.
  - intros ([k' vs] & -> & Hin). apply elem_of_map_to_list in Hin. eauto.
  - intros [vs Hvs]. exists (k, vs). split; [done|].
    by apply elem_of_map_to_list.
Qed.

Lemma sortedKeys_sorted m : StronglySorted String.le (sortedKeys m).
Proof. apply StronglySorted_merge_sort; apply _. Qed.

(** The keys are distinct, so the order is strict. *)
Lemma sortedKeys_strict m : StronglySorted str_lt (sortedKeys m).
Proof.
  pose proof (sortedKeys_sorted m) as Hs.
  pose proof (sortedKeys_NoDup m) as Hnd.
  induction Hs as [|k ks Hs IH Hall]; [constructor|].
  apply NoDup_cons in Hnd as [Hk Hnd]. constructor; [by apply IH|].
  rewrite Forall_forall in *. intros k' Hk'.
  apply str_lt_spec. split; [by apply Hall|]. by intros ->.
Qed.

(** The sorted key slice is the only sorted arrangement of the keys. *)
Lemma sortedKeys_unique m ks :
  StronglySorted String.le ks → NoDup ks →
  (∀ k, k ∈ ks ↔ is_Some (m !! k)) →
  sortedKeys m = ks.
Proof.
  intros Hs Hnd Hks. apply (StronglySorted_unique String.le).
  - apply sortedKeys_sorted.
  - done.
  - apply NoDup_Permutation; [apply sortedKeys_NoDup|done|].
    intros k. by rewrite sortedKeys_elem, Hks.
Qed.

Lemma sortedKeys_empty : sortedKeys ∅ = [].
Proof. unfold sortedKeys. by rewrite map_to_list_empty. Qed.

Lemma sortedKeys_nil m : sortedKeys m = [] → m = ∅.
Proof.
  intros H. apply map_eq. intros k. rewrite lookup_empty.
  apply eq_None_not_Some. rewrite <- sortedKeys_elem, H.
  apply not_elem_of_nil.
Qed.

Lemma sortedKeys_singleton k vs : sortedKeys {[k := vs]} = [k].
Proof. unfold sortedKeys. by rewrite map_to_list_singleton. Qed.

Lemma sortedKeys_delete m k :
  sortedKeys (delete k m) = filter (fun k' => k' ≠ k) (sortedKeys m).
Proof.
  apply sortedKeys_unique.
  - eapply StronglySorted_sublist; [apply sublist_filter|].
    apply sortedKeys_sorted.
  - apply NoDup_filter, sortedKeys_NoDup.
  - intros k'. rewrite list_elem_of_filter, sortedKeys_elem.
    rewrite lookup_delete_is_Some. intuition.
Qed.

Lemma getOrderedGetParams_pairs m :
  Omap_Pairs (getOrderedGetParams m) = orderedPairs m.
Proof.
  unfold getOrderedGetParams, orderedPairs, Omap_Pairs, Omap_New.
  rewrite Omap_Set_fold; [done|apply sortedKeys_NoDup|].
  intros k _. apply not_elem_of_nil.
Qed.

Lemma orderedPairs_keys m : (orderedPairs m).*1 = sortedKeys m.
Proof.
  unfold orderedPairs. rewrite <- list_fmap_compose.
  apply list_fmap_id.
Qed.

Lemma orderedPairs_elem m k vs :
  (k, vs) ∈ orderedPairs m ↔ m !! k = Some vs.
Proof.
  unfold orderedPairs. rewrite list_elem_of_fmap. split.
  - intros (k' & [= -> ->] & Hin). apply sortedKeys_elem in Hin as [vs ->].
    done.
  - intros H. exists k. rewrite H. split; [done|].
    apply sortedKeys_elem. eauto.
Qed.

Lemma orderedPairs_delete m k :
  orderedPairs (delete k m) = filter (fun p => p.1 ≠ k) (orderedPairs m).
Proof.
  unfold orderedPairs. rewrite sortedKeys_delete.
  induction (sortedKeys m) as [|k' ks IH]; [done|].
  rewrite filter_cons. cbn [fmap list_fmap]. rewrite filter_cons. simpl.
  case_decide as Hne; cbn [fmap list_fmap]; rewrite IH; [|done].
  by rewrite lookup_delete_ne.
Qed.

Lemma orderedPairs_nil m : orderedPairs m = [] ↔ m = ∅.
Proof.
  split.
  - intros H. apply sortedKeys_nil. by rewrite <- orderedPairs_keys, H.
  - intros ->. unfold orderedPairs. by rewrite sortedKeys_empty.
Qed.

End ordering.

(** ** The validation pass *)

Section scan.
Context (wl : AllowedColumns).
Implicit Types (ps : list (string * list string)) (st : scanState).

Lemma firstError_None ps :
  firstError ps = None ↔ Forall (fun p => parses p.1 p.2) ps.
Proof.
  induction ps as [|[k vs] ps IH]; cbn [firstError]; [done|].
  rewrite Forall_cons. unfold parses at 1. simpl.
  destruct (splitParamName k vs) as [e|fp]; [|intuition eauto].
  split; [done|]. by intros [[? [=]] _].
Qed.

Lemma okPrefix_all ps : firstError ps = None → okPrefix ps = ps.
Proof.
  induction ps as [|[k vs] ps IH]; cbn [firstError okPrefix]; [done|].
  destruct (splitParamName k vs); [done|]. intros H. by rewrite IH.
Qed.

Lemma firstError_app pre k vs post e :
  Forall (fun p => parses p.1 p.2) pre → splitParamName k vs = inl e →
  firstError (pre ++ (k, vs) :: post) = Some e
  ∧ okPrefix (pre ++ (k, vs) :: post) = pre.
Proof.
  intros Hpre He. induction Hpre as [|[k' vs'] pre [fp Hfp] _ IH].
  - cbn [app firstError okPrefix]. by rewrite He.
  - simpl in Hfp. cbn [app firstError okPrefix]. rewrite Hfp.
    destruct IH as [-> ->]. done.
Qed.

Lemma okPrefix_parses ps : Forall (fun p => parses p.1 p.2) (okPrefix ps).
Proof.
  induction ps as [|[k vs] ps IH]; cbn [okPrefix]; [done|].
  destruct (splitParamName k vs) as [|fp] eqn:E; [done|].
  constructor; [by exists fp|done].
Qed.

Lemma okPrefix_prefix ps : okPrefix ps `prefix_of` ps.
Proof.
  induction ps as [|[k vs] ps IH]; cbn [okPrefix]; [done|].
  destruct (splitParamName k vs); [apply prefix_nil|by apply prefix_cons].
Qed.

(** The loop in closed form: it stops at the first key that does not parse
    and has by then processed exactly the pairs before it. *)
Lemma scanPairs_closed ps st :
  ∃ st1,
    scanPairs wl ps st
    = match firstError ps with
      | Some e => inl (st1, e)
      | None => inr st1
      end
    ∧ st_validParams st1
      = fold_left (valid_step wl) (okPrefix ps) (st_validParams st)
    ∧ st_removedParams st1
      = fold_left (removed_step wl) (okPrefix ps) (st_removedParams st).
Proof.
  revert st. induction ps as [|[k vs] ps IH]; intros st.
  - by exists st.
  - cbn [scanPairs firstError okPrefix].
    destruct (splitParamName k vs) as [e|fp] eqn:E; [by exists st|].
    cbn [fold_left].
    assert (valid_step wl (st_validParams st) (k, vs)
            = match wl !! Name fp with
              | Some f =>
                  Omap_Set (f (Name fp))
                    (mkFilterParam (f (Name fp)) (QueryToken fp) (Values fp))
                    (st_validParams st)
              | None => st_validParams st
              end) as -> by (unfold valid_step; simpl; by rewrite E).
    assert (removed_step wl (st_removedParams st) (k, vs)
            = match wl !! Name fp with
              | Some _ => st_removedParams st
              | None => <[k := vs]> (st_removedParams st)
              end) as -> by (unfold removed_step; simpl; by rewrite E).
    destruct (wl !! Name fp) as [f|] eqn:Hwl; simpl;
      match goal with |- context [scanPairs wl ps ?s] =>
        destruct (IH s) as (st1 & -> & Hv & Hr) end;
      exists st1; by split_and!.
Qed.

Lemma getValidQueryParams_closed (m : url_Values) :
  m ≠ ∅ →
  getValidQueryParams wl (getOrderedGetParams m)
  = let ps := orderedPairs m in
    match firstError ps with
    | Some e =>
        (fold_left (valid_step wl) (okPrefix ps) [],
         Some (fold_left (removed_step wl) (okPrefix ps) ∅), Some e)
    | None =>
        (fold_left (valid_step wl) ps [],
         nil_if_empty (fold_left (removed_step wl) ps ∅), None)
    end.
Proof.
  intros Hm. unfold getValidQueryParams. rewrite getOrderedGetParams_pairs.
  change (Omap_Len (getOrderedGetParams m))
    with (length (Omap_Pairs (getOrderedGetParams m))).
  rewrite getOrderedGetParams_pairs.
  destruct (Nat.eqb_spec (length (orderedPairs m)) 0) as [Hl|_].
  { apply nil_length_inv, orderedPairs_nil in Hl. done. }
  simpl.
  destruct (scanPairs_closed (orderedPairs m)
              (mkScanState (getOrderedGetParams m) Omap_New ∅))
    as (st1 & -> & Hv & Hr).
  simpl in Hv, Hr. destruct (firstError (orderedPairs m)) eqn:E.
  - by rewrite Hv, Hr.
  - rewrite (okPrefix_all _ E) in Hv, Hr. by rewrite Hv, Hr.
Qed.

(** [Build] in closed form. *)
Lemma Build_empty : Build wl ∅ =
  (Filter_zero, None, Some errAttemptedToPassEmptyFilteringParams).
Proof.
  unfold Build, getValidQueryParams, getOrderedGetParams.
  by rewrite sortedKeys_empty.
Qed.

Lemma Build_closed (m : url_Values) :
  m ≠ ∅ →
  Build wl m
  = let ps := orderedPairs m in
    match firstError ps with
    | Some e =>
        (Filter_zero,
         Some (fold_left (removed_step wl) (okPrefix ps) ∅), Some e)
    | None =>
        (buildQueryFilters (fold_left (valid_step wl) ps []),
         nil_if_empty (fold_left (removed_step wl) ps ∅), None)
    end.
Proof.
  intros Hm. unfold Build. rewrite getValidQueryParams_closed by done.
  simpl. by destruct (firstError (orderedPairs m)).
Qed.

Lemma Build_nil_error (m : url_Values) F R :
  Build wl m = (F, R, None) →
  m ≠ ∅ ∧ firstError (orderedPairs m) = None
  ∧ F = buildQueryFilters (fold_left (valid_step wl) (orderedPairs m) [])
  ∧ R = nil_if_empty (fold_left (removed_step wl) (orderedPairs m) ∅)
  ∧ validParamsOf wl m = fold_left (valid_step wl) (orderedPairs m) [].
Proof.
  intros H. destruct (decide (m = ∅)) as [->|Hm].
  { by rewrite Build_empty in H. }
  unfold validParamsOf. rewrite getValidQueryParams_closed by done.
  rewrite Build_closed in H by done. simpl in *.
  destruct (firstError (orderedPairs m)); [done|].
  by injection H as <- <-.
Qed.

End scan.

(** ** The filter assembler *)

Section assemble.

Lemma buildQueryFilters_loop len (l : list (string * filterParam))
    acc vals c :
  c + length l = len →
  fold_left (buildQueryFilters_step len) l (acc, vals, c)
  = (acc +:+ join " AND " (Sql ∘ snd <$> l),
     vals ++ concat (Values ∘ snd <$> l), len).
Proof.
  revert acc vals c. induction l as [|x l IH]; intros acc vals c Hlen.
  - simpl in *. rewrite str_app_nil_r, app_nil_r.
    by replace c with len by lia.
  - cbn [fold_left length] in *. unfold buildQueryFilters_step at 2.
    rewrite IH by lia.
    match goal with |- (?a, ?b, _) = (?a', ?b', _) =>
      assert (a = a') as ->; [|assert (b = b') as ->; [|done]] end.
    + destruct l as [|y l].
      * destruct (Nat.ltb_spec (c + 1) len); [simpl in *; lia|].
        by rewrite !str_app_nil_r.
      * destruct (Nat.ltb_spec (c + 1) len); [|simpl in *; lia].
        cbn [fmap list_fmap].
        change (join " AND " (?a :: ?b :: ?r))
          with (a +:+ " AND " +:+ join " AND " (b :: r)).
        by rewrite !str_app_assoc.
    + cbn [fmap list_fmap concat]. simpl. by rewrite <- app_assoc.
Qed.

(** The fragment is the predicates joined with [" AND "], the bind values
    are the parameters' values one after the other. *)
Lemma buildQueryFilters_closed (V : Omap filterParam) :
  buildQueryFilters V
  = mkFilter (join " AND " (Sql ∘ snd <$> V))
      (concat (Values ∘ snd <$> V)).
Proof.
  unfold buildQueryFilters, Omap_Pairs, Omap_Len.
  by rewrite (buildQueryFilters_loop (length V)).
Qed.

Lemma count_join_AND (l : list string) :
  count_byte "?" (join " AND " l) = sum_list (count_byte "?" <$> l).
Proof.
  induction l as [|x l IH]; [done|]. destruct l as [|y l].
  - simpl. lia.
  - change (join " AND " (x :: y :: l))
      with (x +:+ " AND " +:+ join " AND " (y :: l)).
    rewrite !count_byte_app, IH.
    change (count_byte "?" " AND ") with 0.
    cbn [fmap list_fmap sum_list sum_list_with]. unfold id. lia.
Qed.

Lemma buildQueryFilters_count (V : Omap filterParam) :
  Forall (fun e => wf_param e.2) V →
  count_byte "?" (SqlFilters (buildQueryFilters V))
  = length (PlaceholderValues (buildQueryFilters V))
    + sum_list (count_byte "?" ∘ Name ∘ snd <$> V).
Proof.
  intros Hwf. rewrite buildQueryFilters_closed. cbn [SqlFilters
    PlaceholderValues]. rewrite count_join_AND.
  induction Hwf as [|e V He _ IH]; [done|].
  cbn [fmap list_fmap sum_list sum_list_with concat].
  rewrite length_app, IH. unfold id. cbn [compose].
  rewrite (Sql_count _ He). lia.
Qed.

End assemble.

(** ** What the validation pass accumulates *)

Section accumulate.
Context (wl : AllowedColumns).
Implicit Types (ps : list (string * list string)).

Lemma removed_step_parses R p :
  parses p.1 p.2 →
  removed_step wl R p
  = match wl !! colOf p.1 with
    | Some _ => R
    | None => <[p.1 := p.2]> R
    end.
Proof.
  intros [fp Hfp]. unfold removed_step. rewrite Hfp.
  by destruct (splitParamName_inr _ _ _ Hfp) as (-> & _ & _).
Qed.

Lemma valid_step_parses V p :
  parses p.1 p.2 →
  ∃ tok, wf_param (mkFilterParam (colOf p.1) tok p.2) ∧
  valid_step wl V p
  = match wl !! colOf p.1 with
    | Some f =>
        Omap_Set (f (colOf p.1))
          (mkFilterParam (f (colOf p.1)) tok p.2) V
    | None => V
    end.
Proof.
  intros [fp Hfp]. unfold valid_step. rewrite Hfp.
  destruct (splitParamName_inr _ _ _ Hfp) as (Hn & Hv & Hwf).
  exists (QueryToken fp). rewrite <- Hn, <- Hv. split; [by destruct fp|].
  done.
Qed.

(** A key whose column is not whitelisted leaves [validParams] alone. *)
Lemma valid_step_rejected V p :
  wl !! colOf p.1 = None → valid_step wl V p = V.
Proof.
  intros Hwl. unfold valid_step.
  destruct (splitParamName p.1 p.2) as [|fp] eqn:Hfp; [done|].
  destruct (splitParamName_inr _ _ _ Hfp) as (-> & _ & _).
  by rewrite Hwl.
Qed.

(** A key whose column is whitelisted leaves [removedParams] alone. *)
Lemma removed_step_whitelisted R p :
  is_Some (wl !! colOf p.1) → removed_step wl R p = R.
Proof.
  intros [f Hwl]. unfold removed_step.
  destruct (splitParamName p.1 p.2) as [|fp] eqn:Hfp; [done|].
  destruct (splitParamName_inr _ _ _ Hfp) as (-> & _ & _).
  by rewrite Hwl.
Qed.

(** [removedParams] after the pairs [ps]: exactly the pairs of [ps] whose
    column is not whitelisted, verbatim. *)
Lemma removed_fold_lookup ps k vs :
  NoDup ps.*1 → Forall (fun p => parses p.1 p.2) ps →
  fold_left (removed_step wl) ps ∅ !! k = Some vs
  ↔ (k, vs) ∈ ps ∧ wl !! colOf k = None.
Proof.
  induction ps as [|[k' vs'] ps IH] using rev_ind; intros Hnd Hps.
  - simpl. rewrite lookup_empty, elem_of_nil. intuition congruence.
  - rewrite fmap_app in Hnd. apply NoDup_app in Hnd as (Hnd & Hk' & _).
    apply Forall_app in Hps as [Hps Hp].
    apply Forall_cons in Hp as [Hp _].
    rewrite fold_left_app. cbn [fold_left].
    rewrite removed_step_parses by done. simpl.
    rewrite elem_of_app, list_elem_of_singleton.
    assert (∀ vs0, (k', vs0) ∉ ps) as Hfresh.
    { intros vs0 Hin. apply (Hk' k'); [|apply list_elem_of_here].
      apply list_elem_of_fmap. by exists (k', vs0). }
    destruct (wl !! colOf k') as [f|] eqn:Hwl.
    + rewrite IH by done. split; [intuition|].
      intros [[Hin|[= -> ->]] Hn]; [done|congruence].
    + destruct (decide (k = k')) as [->|Hne].
      * rewrite lookup_insert_eq. split.
        -- intros [= ->]. auto.
        -- intros [[Hin|[= ->]] _]; [by apply Hfresh in Hin|done].
      * rewrite lookup_insert_ne by done. rewrite IH by done.
        split; [intuition|]. intros [[Hin|[= -> ->]] Hn]; done.
Qed.

(** Every entry of [validParams] is a constructed parameter stored under
    its own name. *)
Lemma valid_fold_wf ps V :
  Forall (fun e => Name e.2 = e.1 ∧ wf_param e.2) V →
  Forall (fun e => Name e.2 = e.1 ∧ wf_param e.2)
    (fold_left (valid_step wl) ps V).
Proof.
  revert V. induction ps as [|p ps IH]; intros V HV; [done|].
  cbn [fold_left]. apply IH. unfold valid_step.
  destruct (splitParamName p.1 p.2) as [|fp] eqn:Hfp; [done|].
  destruct (wl !! Name fp) as [f|]; [|done].
  destruct (splitParamName_inr _ _ _ Hfp) as (_ & _ & Hwf).
  set (fp' := mkFilterParam _ _ _).
  assert (Name fp' = f (Name fp) ∧ wf_param fp') as Hfp' by done.
  clearbody fp'. revert Hfp'. generalize (f (Name fp)). intros n [<- Hw].
  clear -HV Hw. induction HV as [|[k d] V Hd HV IH']; cbn [Omap_Set].
  - constructor; [done|constructor].
  - destruct (String.eqb_spec k (Name fp')); by constructor.
Qed.

Lemma valid_fold_NoDup ps V :
  NoDup V.*1 → NoDup (fold_left (valid_step wl) ps V).*1.
Proof.
  revert V. induction ps as [|p ps IH]; intros V HV; [done|].
  cbn [fold_left]. apply IH. unfold valid_step.
  destruct (splitParamName p.1 p.2) as [|fp]; [done|].
  destruct (wl !! Name fp) as [f|]; [|done]. by apply Omap_Set_NoDup.
Qed.

(** The names in [validParams] follow the order of the raw keys: each new
    name is the final name of a key, and those keys are a subsequence of
    the keys scanned. *)
Lemma valid_fold_keys ps V :
  Forall (fun p => parses p.1 p.2) ps →
  ∃ ks names,
    ks `sublist_of` ps.*1
    ∧ Forall2 (fun k n => finalName wl k = Some n) ks names
    ∧ (fold_left (valid_step wl) ps V).*1 = V.*1 ++ names.
Proof.
  intros Hps. revert V.
  induction Hps as [|p ps Hp _ IH]; intros V.
  - exists [], []. by rewrite app_nil_r.
  - cbn [fold_left].
    destruct (valid_step_parses V p Hp) as (tok & _ & ->).
    destruct (wl !! colOf p.1) as [f|] eqn:Hwl.
    + destruct (IH (Omap_Set (f (colOf p.1))
                      (mkFilterParam (f (colOf p.1)) tok p.2) V))
        as (ks & names & Hsub & Hfin & ->).
      rewrite Omap_Set_keys. case_decide.
      * exists ks, names. split_and!; [|done..].
        cbn [fmap list_fmap]. by apply sublist_cons.
      * exists (p.1 :: ks), (f (colOf p.1) :: names). split_and!.
        -- cbn [fmap list_fmap]. by apply sublist_skip.
        -- constructor; [|done]. unfold finalName. by rewrite Hwl.
        -- by rewrite <- app_assoc.
    + destruct (IH V) as (ks & names & Hsub & Hfin & ->).
      exists ks, names. split_and!; [|done..].
      cbn [fmap list_fmap]. by apply sublist_cons.
Qed.

(** The names in [validParams], exactly: the final names of the whitelisted
    keys in scan order, each where it first occurs. *)
Lemma valid_fold_columns ps V :
  Forall (fun p => parses p.1 p.2) ps →
  (fold_left (valid_step wl) ps V).*1
  = fold_left keep_first_step (omap (finalName wl) ps.*1) V.*1.
Proof.
  intros Hps. revert V. induction Hps as [|p ps Hp _ IH]; intros V; [done|].
  cbn [fold_left fmap list_fmap omap list_omap].
  destruct (valid_step_parses V p Hp) as (tok & _ & ->).
  unfold finalName at 1.
  destruct (wl !! colOf p.1) as [f|] eqn:Hwl; simpl; [|apply IH].
  rewrite IH, Omap_Set_keys. done.
Qed.

End accumulate.

(** ** [Build]: where the scan stops, and requests of one parameter *)

Section build.
Context (wl : AllowedColumns).
Implicit Types (m : url_Values) (k : string) (vs : list string).

Lemma orderedPairs_NoDup m : NoDup (orderedPairs m).*1.
Proof. rewrite orderedPairs_keys. apply sortedKeys_NoDup. Qed.

(** The pairs before and after a key of the request. *)
Lemma orderedPairs_split m k vs :
  m !! k = Some vs →
  ∃ pre post,
    orderedPairs m = pre ++ (k, vs) :: post
    ∧ (∀ k' vs', (k', vs') ∈ pre ↔ m !! k' = Some vs' ∧ str_lt k' k)
    ∧ (∀ k' vs', (k', vs') ∈ post ↔ m !! k' = Some vs' ∧ str_lt k k').
Proof.
  intros Hk. pose proof Hk as Hin. apply orderedPairs_elem in Hin.
  apply list_elem_of_split in Hin as (pre & post & Hps).
  exists pre, post. split; [done|].
  pose proof (sortedKeys_strict m) as Hs.
  rewrite <- orderedPairs_keys, Hps, fmap_app, fmap_cons in Hs.
  apply StronglySorted_app in Hs as (Hlt & _ & Hs).
  apply StronglySorted_cons in Hs as [Hgt _]. rewrite Forall_forall in Hgt.
  assert (∀ k' vs', (k', vs') ∈ pre → str_lt k' k) as Hpre.
  { intros k' vs' H. apply (Hlt k' k); [|apply list_elem_of_here].
    apply list_elem_of_fmap. by exists (k', vs'). }
  assert (∀ k' vs', (k', vs') ∈ post → str_lt k k') as Hpost.
  { intros k' vs' H. apply Hgt. apply list_elem_of_fmap.
    by exists (k', vs'). }
  assert (∀ k' vs', m !! k' = Some vs' ↔
            (k', vs') ∈ pre ∨ (k', vs') = (k, vs) ∨ (k', vs') ∈ post)
    as Hall.
  { intros k' vs'. rewrite <- orderedPairs_elem, Hps.
    by rewrite elem_of_app, elem_of_cons. }
  split; intros k' vs'; rewrite Hall; split.
  - intros H. split; [by left|by eapply Hpre].
  - intros [[H|[[= -> ->]|H]] Hlt']; [done| |].
    + by apply str_lt_irrefl in Hlt'.
    + apply Hpost in H. destruct (str_lt_irrefl k).
      by etrans.
  - intros H. split; [by right; right|by eapply Hpost].
  - intros [[H|[[= -> ->]|H]] Hlt']; [| |done].
    + apply Hpre in H. destruct (str_lt_irrefl k). by etrans.
    + by apply str_lt_irrefl in Hlt'.
Qed.

(** The call stops at the first key, in sorted order, that does not parse:
    it returns that key's error, the zero [Filter], and the parameters
    rejected before that key. *)
Lemma Build_stops_at m k vs e :
  m !! k = Some vs → reached m k → splitParamName k vs = inl e →
  ∃ Rm,
    Build wl m = (Filter_zero, Some Rm, Some e)
    ∧ ∀ k' vs', Rm !! k' = Some vs'
        ↔ m !! k' = Some vs' ∧ str_lt k' k ∧ wl !! colOf k' = None.
Proof.
  intros Hk Hreach He.
  destruct (orderedPairs_split m k vs Hk) as (pre & post & Hps & Hpre & _).
  assert (Forall (fun p => parses p.1 p.2) pre) as Hok.
  { apply Forall_forall. intros [k' vs'] [H1 H2]%Hpre. by eapply Hreach. }
  destruct (firstError_app pre k vs post e Hok He) as [Hfe Hpref].
  exists (fold_left (removed_step wl) pre ∅). split.
  - rewrite Build_closed by (by intros ->). simpl.
    by rewrite Hps, Hfe, Hpref.
  - intros k' vs'. rewrite removed_fold_lookup; [|..|done].
    + rewrite Hpre. intuition.
    + pose proof (orderedPairs_NoDup m) as Hnd.
      rewrite Hps, fmap_app in Hnd. by apply NoDup_app in Hnd as [? _].
Qed.

(** A key that does not parse makes the call fail, whatever else the
    request holds. *)
Lemma Build_fails m k vs e :
  m !! k = Some vs → splitParamName k vs = inl e →
  ∃ e' R, Build wl m = (Filter_zero, R, Some e').
Proof.
  intros Hk He. rewrite Build_closed by (by intros ->). simpl.
  destruct (firstError (orderedPairs m)) as [e'|] eqn:Hfe; [by eauto|].
  apply firstError_None in Hfe. rewrite Forall_forall in Hfe.
  apply orderedPairs_elem, Hfe in Hk as [fp Hfp]. simpl in Hfp.
  congruence.
Qed.

Lemma orderedPairs_singleton k vs : orderedPairs {[k := vs]} = [(k, vs)].
Proof.
  unfold orderedPairs. rewrite sortedKeys_singleton. simpl.
  by rewrite lookup_singleton_eq.
Qed.

Lemma nil_if_empty_empty : nil_if_empty ∅ = None.
Proof. unfold nil_if_empty. by rewrite map_size_empty. Qed.

Lemma nil_if_empty_Some R Rm :
  nil_if_empty R = Some Rm → Rm = R ∧ R ≠ ∅.
Proof.
  unfold nil_if_empty. destruct (Nat.eqb_spec (size R) 0) as [|Hs]; [done|].
  intros [= <-]. split; [done|]. intros ->. by rewrite map_size_empty in Hs.
Qed.

Lemma nil_if_empty_nonempty R : R ≠ ∅ → nil_if_empty R = Some R.
Proof.
  intros HR. unfold nil_if_empty.
  destruct (Nat.eqb_spec (size R) 0) as [Hs|]; [|done].
  by apply map_size_empty_inv in Hs.
Qed.

Lemma Build_single_ok k vs fp f :
  splitParamName k vs = inr fp → wl !! Name fp = Some f →
  let fp' := mkFilterParam (f (Name fp)) (QueryToken fp) (Values fp) in
  Build wl {[k := vs]} = (mkFilter (Sql fp') (Values fp), None, None).
Proof.
  intros Hfp Hwl. rewrite Build_closed by apply map_non_empty_singleton.
  rewrite orderedPairs_singleton. cbn [firstError fold_left].
  unfold valid_step, removed_step. simpl. rewrite Hfp, Hwl.
  rewrite nil_if_empty_empty, buildQueryFilters_closed. simpl.
  by rewrite app_nil_r.
Qed.

(** A request of one parameter that does not parse: the error, the zero
    [Filter] and a non-nil empty map, as the package's last test case
    expects. *)
Lemma Build_single_error k vs e :
  splitParamName k vs = inl e →
  Build wl {[k := vs]} = (Filter_zero, Some ∅, Some e).
Proof.
  intros He. rewrite Build_closed by apply map_non_empty_singleton.
  rewrite orderedPairs_singleton. cbn [firstError okPrefix fold_left].
  by rewrite He.
Qed.

End build.

(** ** Further facts about the scan and the ordered map of valid parameters *)

Section scan_facts.
Implicit Types (wl : AllowedColumns) (m : url_Values).

Lemma reached_singleton k vs : reached {[k := vs]} k.
Proof.
  intros k' vs' [-> _]%lookup_singleton_Some Hlt.
  by apply str_lt_irrefl in Hlt.
Qed.

Lemma removed_fold_whitelisted wl (ps : list (string * list string)) R :
  Forall (fun p => is_Some (wl !! colOf p.1)) ps →
  fold_left (removed_step wl) ps R = R.
Proof.
  induction 1 as [|p ps Hp _ IH]; [done|]. cbn [fold_left].
  by rewrite removed_step_whitelisted.
Qed.

Lemma finalName_Some wl k n :
  finalName wl k = Some n ↔ ∃ f, wl !! colOf k = Some f ∧ n = f (colOf k).
Proof.
  unfold finalName. destruct (wl !! colOf k) as [f|]; simpl.
  - split; [intros [= <-]; eauto|]. by intros (f' & [= <-] & ->).
  - split; [done|]. by intros (? & ? & _).
Qed.

Lemma validParams_names wl (V : Omap filterParam) :
  Forall (fun e => Name e.2 = e.1 ∧ wf_param e.2) V →
  (count_byte "?" ∘ Name ∘ snd <$> V) = (count_byte "?" <$> V.*1).
Proof.
  induction 1 as [|e V [He _] _ IH]; [done|].
  cbn [fmap list_fmap] in *. simpl. by rewrite He, IH.
Qed.

Lemma firstError_filter (ps : list (string * list string)) k :
  (∀ p, p ∈ ps → p.1 = k → parses p.1 p.2) →
  firstError (filter (fun p => p.1 ≠ k) ps) = firstError ps.
Proof.
  induction ps as [|[k' vs'] ps IH]; intros H; [done|].
  assert (firstError (filter (fun p => p.1 ≠ k) ps) = firstError ps) as IH'.
  { apply IH. intros p Hp. apply H. by apply list_elem_of_further. }
  destruct (decide (k' = k)) as [->|Hne].
  - rewrite filter_cons_False by (simpl; tauto).
    destruct (H (k, vs')) as [fp Hfp]; [apply list_elem_of_here|done|].
    simpl in Hfp. cbn [firstError]. by rewrite Hfp.
  - rewrite filter_cons_True by done. cbn [firstError]. by rewrite IH'.
Qed.

Lemma valid_fold_filter wl (ps : list (string * list string)) k V :
  (∀ p, p ∈ ps → p.1 = k → wl !! colOf p.1 = None) →
  fold_left (valid_step wl) (filter (fun p => p.1 ≠ k) ps) V
  = fold_left (valid_step wl) ps V.
Proof.
  revert V. induction ps as [|[k' vs'] ps IH]; intros V H; [done|].
  assert (∀ V, fold_left (valid_step wl) (filter (fun p => p.1 ≠ k) ps) V
               = fold_left (valid_step wl) ps V) as IH'.
  { intros V'. apply IH. intros p Hp. apply H.
    by apply list_elem_of_further. }
  destruct (decide (k' = k)) as [->|Hne].
  - rewrite filter_cons_False by (simpl; tauto). cbn [fold_left].
    rewrite valid_step_rejected; [done|].
    by apply H; [apply list_elem_of_here|].
  - rewrite filter_cons_True by done. cbn [fold_left]. by rewrite IH'.
Qed.

(** Whatever [Build] returns as rejected parameters are parameters of the
    request, verbatim, whose column is not whitelisted. *)
Lemma Build_rejected_sound wl m F Rm err k vs :
  Build wl m = (F, Some Rm, err) → Rm !! k = Some vs →
  m !! k = Some vs ∧ wl !! colOf k = None.
Proof.
  intros HB Hk. destruct (decide (m = ∅)) as [->|Hm].
  { by rewrite Build_empty in HB. }
  rewrite Build_closed in HB by done. simpl in HB.
  pose proof (orderedPairs_NoDup m) as Hnd.
  destruct (firstError (orderedPairs m)) as [e|] eqn:Hfe.
  - injection HB as _ <- _.
    destruct (okPrefix_prefix (orderedPairs m)) as [rest Hrest].
    rewrite Hrest, fmap_app in Hnd. apply NoDup_app in Hnd as [Hnd _].
    apply removed_fold_lookup in Hk as [Hin Hwl];
      [|done|apply okPrefix_parses].
    split; [|done]. apply orderedPairs_elem. rewrite Hrest.
    apply elem_of_app. by left.
  - injection HB as _ HR. apply nil_if_empty_Some in HR as [-> _].
    apply removed_fold_lookup in Hk as [Hin Hwl];
      [|done|by apply firstError_None].
    split; [|done]. by apply orderedPairs_elem.
Qed.

Lemma valid_fold_Get_other wl (ps : list (string * list string)) V n :
  (∀ p, p ∈ ps → finalName wl p.1 ≠ Some n) →
  Omap_Get n (fold_left (valid_step wl) ps V) = Omap_Get n V.
Proof.
  revert V. induction ps as [|p ps IH]; intros V H; [done|].
  cbn [fold_left]. rewrite IH
    by (intros q Hq; apply H; by apply list_elem_of_further).
  unfold valid_step.
  destruct (splitParamName p.1 p.2) as [|fp] eqn:Hfp; [done|].
  destruct (splitParamName_inr _ _ _ Hfp) as (Hname & _ & _).
  destruct (wl !! Name fp) as [f|] eqn:Hwl; [|done].
  rewrite Omap_Get_Set. case_decide as E; [|done].
  destruct (H p); [apply list_elem_of_here|].
  unfold finalName. rewrite <- Hname, Hwl. simpl. by rewrite E.
Qed.

(** The entry stored under a final name is that of the last key, in scan
    order, that has this final name. *)
Lemma valid_fold_Get_last wl pre p post V fp f :
  splitParamName p.1 p.2 = inr fp → wl !! Name fp = Some f →
  (∀ q, q ∈ post → finalName wl q.1 ≠ Some (f (Name fp))) →
  Omap_Get (f (Name fp)) (fold_left (valid_step wl) (pre ++ p :: post) V)
  = Some (mkFilterParam (f (Name fp)) (QueryToken fp) (Values fp)).
Proof.
  intros Hfp Hwl Hpost. rewrite fold_left_app. cbn [fold_left].
  rewrite valid_fold_Get_other by done.
  unfold valid_step at 1. rewrite Hfp, Hwl, Omap_Get_Set.
  by case_decide.
Qed.

(** The predicate of a whitelisted key that no later key overwrites is one of
    the predicates of the fragment, and its values are a segment of the bind
    values. *)
Lemma Build_surviving_predicate wl m k vs fp f F R :
  m !! k = Some vs → splitParamName k vs = inr fp → wl !! Name fp = Some f →
  (∀ k', is_Some (m !! k') → finalName wl k' = Some (f (Name fp)) →
         String.le k' k) →
  Build wl m = (F, R, None) →
  let fp' := mkFilterParam (f (Name fp)) (QueryToken fp) vs in
  Omap_Get (f (Name fp)) (validParamsOf wl m) = Some fp'
  ∧ ∃ before after : list filterParam,
      SqlFilters F = join " AND " (Sql <$> before ++ fp' :: after)
      ∧ PlaceholderValues F
        = concat (Values <$> before) ++ vs ++ concat (Values <$> after).
Proof.
  intros Hk Hfp Hwl Hlast (Hm & Hfe & -> & _ & HV)%Build_nil_error fp'.
  destruct (splitParamName_inr _ _ _ Hfp) as (_ & Hv & _).
  assert (Omap_Get (f (Name fp)) (validParamsOf wl m) = Some fp') as HGet.
  { rewrite HV.
    destruct (orderedPairs_split m k vs Hk) as (pre & post & -> & _ & Hpost).
    rewrite (valid_fold_Get_last wl pre (k, vs) post [] fp f);
      [by unfold fp'; rewrite Hv|done..|].
    intros [k' vs'] [Hk' Hgt]%Hpost Hfin. simpl in Hfin.
    destruct Hgt as [_ Hnle]. apply Hnle, Hlast; eauto. }
  split; [done|]. rewrite HV in HGet.
  apply Omap_Get_Some, list_elem_of_split in HGet as (V1 & V2 & ->).
  exists V1.*2, V2.*2. rewrite buildQueryFilters_closed. simpl.
  rewrite !fmap_app, !fmap_cons, concat_app. simpl.
  by rewrite <- !list_fmap_compose.
Qed.

End scan_facts.

(** * The specification's claims *)

Section claims.
Implicit Types (wl : AllowedColumns) (m : url_Values).




(** C2: when [Build] returns a nil error, the ['?'] of every predicate of
    the fragment are one for each of its values plus the ['?'] bytes of its
    final column name, and the ['?'] of the fragment are one for each bind
    value plus the ['?'] bytes of the final column names of its predicates.
    So when the whitelist rewrites no column to a name that holds ['?'],
    the number of ['?'] in the fragment is the number of bind values. *)
Theorem Build_placeholder_count wl m F R :
  Build wl m = (F, R, None) →
  Forall (fun e => count_byte "?" (Sql e.2)
                   = length (Values e.2) + count_byte "?" e.1)
    (validParamsOf wl m)
  ∧ count_byte "?" (SqlFilters F)
    = length (PlaceholderValues F)
      + sum_list (count_byte "?" <$> fragmentColumns wl m)
  ∧ ((∀ c f, wl !! c = Some f → count_byte "?" (f c) = 0) →
     count_byte "?" (SqlFilters F) = length (PlaceholderValues F)).
Proof.
  intros (Hm & Hfe & -> & _ & HV)%Build_nil_error.
  unfold fragmentColumns, Omap_Pairs. rewrite HV.
  pose proof (valid_fold_wf wl (orderedPairs m) [] (Forall_nil_2 _)) as Hwf.
  assert (count_byte "?"
            (SqlFilters (buildQueryFilters
               (fold_left (valid_step wl) (orderedPairs m) [])))
          = length (PlaceholderValues (buildQueryFilters
               (fold_left (valid_step wl) (orderedPairs m) [])))
            + sum_list (count_byte "?"
                <$> (fold_left (valid_step wl) (orderedPairs m) []).*1))
    as Hcount.
  { rewrite buildQueryFilters_count, (validParams_names wl); [done|done|].
    eapply Forall_impl; [exact Hwf|]. by intros e [_ ?]. }
  split_and!.
  - eapply Forall_impl; [exact Hwf|]. intros e [He Hw].
    rewrite <- He. by apply Sql_count.
  - done.
  - intros Hfree. rewrite Hcount.
    apply firstError_None in Hfe.
    destruct (valid_fold_keys wl (orderedPairs m) [] Hfe)
      as (ks & names & _ & Hfin & ->). simpl.
    match goal with |- _ + ?x = _ => enough (x = 0) as Hz by lia end.
    clear -Hfin Hfree. induction Hfin as [|k n ks names Hn _ IH]; [done|].
    apply finalName_Some in Hn as (f & Hf & ->).
    cbn [fmap list_fmap sum_list sum_list_with].
    fold (sum_list (count_byte "?" <$> names)).
    rewrite IH. unfold id. by rewrite (Hfree _ _ Hf).
Qed.

Lemma Build_placeholder_count_witness :
  count_byte "?" "col1 IN (?,?,?) AND col2 = ?"
  = length ["1"; "2"; "3"; "1"].
Proof.
  destruct (Build_placeholder_count whitelist
              (<["col1" := ["1"; "2"; "3"]]>
                 (<["col2" := ["1"]]> (<["col3" := ["val"]]> ∅)))
              (mkFilter "col1 IN (?,?,?) AND col2 = ?" ["1"; "2"; "3"; "1"])
              (Some {["col3" := ["val"]]}))
    as (_ & _ & H); [vm_compute; reflexivity|].
  apply H. intros c f Hc. unfold whitelist in Hc.
  apply lookup_insert_Some in Hc as [[<- <-]|[_ Hc]]; [reflexivity|].
  apply lookup_insert_Some in Hc as [[<- <-]|[_ Hc]]; [reflexivity|].
  by rewrite lookup_empty in Hc.
Defined.

(** C2 as stated fails when the whitelist rewrites a column to a name that
    holds a question mark: [q] rewritten to [q?] gives, with a nil error,
    the fragment [q? = ?] with two ['?'] for one bind value, and the
    predicate of the parameter has two ['?'] for its one value. *)
Lemma Build_placeholder_count_counterexample :
  Build question_whitelist {["q" := ["1"]]}
  = (mkFilter "q? = ?" ["1"], None, None)
  ∧ count_byte "?" (SqlFilters (Build question_whitelist {["q" := ["1"]]}).1.1)
    = 2
  ∧ length (PlaceholderValues
              (Build question_whitelist {["q" := ["1"]]}).1.1) = 1
  ∧ validParamsOf question_whitelist {["q" := ["1"]]}
    = [("q?", mkFilterParam "q?" "IN" ["1"])]
  ∧ count_byte "?" (Sql (mkFilterParam "q?" "IN" ["1"]))
    ≠ length (Values (mkFilterParam "q?" "IN" ["1"])).
Proof.
  split_and!; [by vm_compute..|]. vm_compute. discriminate.
Qed.

(** C3: the single-parameter builder, in priority order.  For a parameter
    with at least one value: one value and IN gives [<column> = ?]; else
    one value and NOT IN gives [<column> <> ?]; else LIKE gives
    [LOWER(<column>) LIKE CONCAT('%', ?, '%')]; otherwise the column, the
    upper-cased token and a parenthesised list of [len(values)]
    comma-separated placeholders with no trailing comma.  For IN and
    NOT IN with two or more values the last case applies and the
    upper-cased token is the token itself. *)
Theorem Sql_priority_cases (fp : filterParam) :
  Values fp ≠ [] →
  Sql fp
  = (if decide (length (Values fp) = 1 ∧ QueryToken fp = QUERY_TOKEN_IN)
     then Name fp +:+ " = ?"
     else if decide (length (Values fp) = 1
                     ∧ QueryToken fp = QUERY_TOKEN_NOT_IN)
     then Name fp +:+ " <> ?"
     else if decide (QueryToken fp = QUERY_TOKEN_LIKE)
     then "LOWER(" +:+ Name fp +:+ ") LIKE CONCAT('%', ?, '%')"
     else Name fp +:+ " " +:+ ToUpper (QueryToken fp) +:+ " ("
          +:+ join "," (replicate (length (Values fp)) "?") +:+ ")")
  ∧ (2 ≤ length (Values fp) →
     QueryToken fp = QUERY_TOKEN_IN ∨ QueryToken fp = QUERY_TOKEN_NOT_IN →
     Sql fp
     = Name fp +:+ " " +:+ QueryToken fp +:+ " ("
       +:+ join "," (replicate (length (Values fp)) "?") +:+ ")").
Proof.
  intros Hv. split.
  - unfold Sql. rewrite buildPhrase_closed by done.
    destruct (Nat.eqb_spec (length (Values fp)) 1) as [Hl|Hl];
      destruct (String.eqb_spec (QueryToken fp) QUERY_TOKEN_IN) as [Hi|Hi];
      destruct (String.eqb_spec (QueryToken fp) QUERY_TOKEN_NOT_IN)
        as [Hn|Hn];
      destruct (String.eqb_spec (QueryToken fp) QUERY_TOKEN_LIKE)
        as [Hk|Hk];
      simpl; repeat case_decide; try done; intuition congruence.
  - intros Hl Ht. by destruct (Sql_many fp Hl Ht) as [-> _].
Qed.

Lemma Sql_priority_cases_witness :
  Sql (mkFilterParam "col1" "NOT IN" ["1"; "2"; "3"])
  = "col1 NOT IN (?,?,?)".
Proof.
  pose proof (Sql_priority_cases
                (mkFilterParam "col1" "NOT IN" ["1"; "2"; "3"])) as H.
  destruct H as [_ H]; [discriminate|].
  rewrite H; [reflexivity|simpl; lia|right; reflexivity].
Defined.

(** C4: a parameter [k] of the request that parses to a column that is not
    whitelisted.  It causes no error and adds nothing to the fragment or
    the bind values, and the other parameters are processed as without
    it: [Build] returns the same [Filter] and the same error as on the
    request without [k] (and, when [k] is the only parameter, an empty
    fragment, no bind values and a nil error).  When [Build] returns a nil
    error the rejected parameters hold [k] with its original values, and
    hold exactly the parameters of the request whose column is not
    whitelisted; they hold [k] also when [Build] stops at a key that sorts
    after [k].  Whatever [Build] returns, a rejected parameter is never a
    whitelisted one. *)
Theorem Build_unwhitelisted wl m k vs fp :
  m !! k = Some vs → splitParamName k vs = inr fp →
  wl !! Name fp = None →
  (delete k m ≠ ∅ →
   (Build wl m).1.1 = (Build wl (delete k m)).1.1
   ∧ (Build wl m).2 = (Build wl (delete k m)).2)
  ∧ (delete k m = ∅ →
     Build wl m = (mkFilter "" [], Some {[k := vs]}, None))
  ∧ (∀ F R, Build wl m = (F, R, None) →
       ∃ Rm, R = Some Rm ∧ Rm !! k = Some vs
         ∧ ∀ k' vs', Rm !! k' = Some vs'
             ↔ m !! k' = Some vs' ∧ wl !! colOf k' = None)
  ∧ (∀ k2 vs2 e,
       m !! k2 = Some vs2 → str_lt k k2 → reached m k2 →
       splitParamName k2 vs2 = inl e →
       ∃ Rm, Build wl m = (Filter_zero, Some Rm, Some e)
         ∧ Rm !! k = Some vs)
  ∧ (∀ F Rm err k' vs',
       Build wl m = (F, Some Rm, err) → Rm !! k' = Some vs' →
       m !! k' = Some vs' ∧ wl !! colOf k' = None).
Proof.
  intros Hk Hfp Hwl.
  destruct (splitParamName_inr _ _ _ Hfp) as (Hname & _ & _).
  rewrite Hname in Hwl.
  assert (m ≠ ∅) as Hm by (by intros ->).
  assert (∀ p, p ∈ orderedPairs m → p.1 = k → p.2 = vs) as Hvs.
  { intros [k' vs'] Hin%orderedPairs_elem [= ->]. simpl. congruence. }
  split_and!.
  - intros Hm'. rewrite !Build_closed by done. simpl.
    rewrite orderedPairs_delete, firstError_filter, valid_fold_filter.
    + by destruct (firstError (orderedPairs m)).
    + by intros p _ ->.
    + intros [k' vs'] Hin Hk'. simpl in Hk'. subst k'.
      pose proof (Hvs _ Hin eq_refl) as E. simpl in E. subst vs'.
      by exists fp.
  - intros Hdel.
    assert (m = {[k := vs]}) as ->.
    { by rewrite <- (insert_delete_id m k vs), Hdel, insert_empty. }
    rewrite Build_closed by done. rewrite orderedPairs_singleton.
    cbn [firstError fold_left]. rewrite Hfp.
    rewrite valid_step_rejected by done.
    rewrite removed_step_parses by (by exists fp). simpl. rewrite Hwl.
    rewrite nil_if_empty_nonempty by apply insert_non_empty.
    by rewrite insert_empty.
  - intros F R (_ & Hfe & _ & -> & _)%Build_nil_error.
    apply firstError_None in Hfe.
    pose proof (removed_fold_lookup wl (orderedPairs m)) as Hlook.
    exists (fold_left (removed_step wl) (orderedPairs m) ∅).
    assert (fold_left (removed_step wl) (orderedPairs m) ∅ !! k = Some vs)
      as Hin.
    { apply Hlook; [apply orderedPairs_NoDup|done|].
      split; [by apply orderedPairs_elem|done]. }
    split_and!; [|done|].
    + apply nil_if_empty_nonempty. intros E. by rewrite E in Hin.
    + intros k' vs'. rewrite Hlook; [|apply orderedPairs_NoDup|done].
      by rewrite orderedPairs_elem.
  - intros k2 vs2 e Hk2 Hlt Hr He.
    destruct (Build_stops_at wl m k2 vs2 e Hk2 Hr He) as (Rm & -> & HRm).
    exists Rm. split; [done|]. by apply HRm.
  - intros F Rm err k' vs'. apply Build_rejected_sound.
Qed.

Lemma Build_unwhitelisted_witness :
  (Build example_whitelist example_params).1.1
  = (Build example_whitelist (delete "col3" example_params)).1.1
  ∧ ∃ Rm : url_Values,
      (Build example_whitelist example_params).1.2 = Some Rm
      ∧ Rm !! "col3" = Some ["val"].
Proof.
  destruct (Build_unwhitelisted example_whitelist example_params
              "col3" ["val"] (mkFilterParam "col3" "IN" ["val"]))
    as (H1 & _ & H3 & _);
    [reflexivity|reflexivity|reflexivity|].
  split.
  - apply H1. intros E.
    assert (delete "col3" example_params !! "col1__in" = None) as H
      by (rewrite E; apply lookup_empty).
    vm_compute in H. discriminate.
  - destruct (H3 (mkFilter "table_name.col1 IN (?,?) AND col2 <> ?"
                    ["1"; "2"; "1"]) (Some {["col3" := ["val"]]}))
      as (Rm & H4 & H5 & _); [vm_compute; reflexivity|].
    exists Rm. split; [|exact H5]. rewrite <- H4. vm_compute. reflexivity.
Defined.

(** C5: a key of the request with more than one separator occurrence,
    that is more than two [__]-separated segments, makes [Build] fail with
    the zero [Filter]; a key of exactly two segments whose operator token
    is none of [in], [not_in], [like] does so too.  When the scan gets to
    that key (no key sorting before it fails to parse, as in a request of
    that key alone) the error is [ErrWrongQueryParamName] with the key,
    respectively [ErrWrongOperator] with the token and the full key. *)
Theorem Build_malformed_key wl m k vs :
  m !! k = Some vs →
  (1 < Count k OPERATOR_SEPARATOR
   ∨ 2 < length (Split k OPERATOR_SEPARATOR) →
   (∃ e R, Build wl m = (Filter_zero, R, Some e))
   ∧ (reached m k →
      ∃ R, Build wl m = (Filter_zero, R, Some (ErrWrongQueryParamName k))))
  ∧ (∀ c op,
       Split k OPERATOR_SEPARATOR = [c; op] →
       op ≠ OPERATOR_IN → op ≠ OPERATOR_NOT_IN → op ≠ OPERATOR_LIKE →
       (∃ e R, Build wl m = (Filter_zero, R, Some e))
       ∧ (reached m k →
          ∃ R, Build wl m = (Filter_zero, R, Some (ErrWrongOperator op k)))).
Proof.
  intros Hk. split.
  - intros Hseg.
    assert (2 < length (Split k OPERATOR_SEPARATOR)) as Hlen.
    { destruct Hseg as [H|H]; [|done]. rewrite Split_length. lia. }
    pose proof (splitParamName_wrong_name k vs Hlen) as He. split.
    + by eapply Build_fails.
    + intros Hr. destruct (Build_stops_at wl m k vs _ Hk Hr He)
        as (Rm & -> & _). eauto.
  - intros c op Hs H1 H2 H3.
    assert (OPERATORS !! op = None) as Hop by (by apply OPERATORS_None).
    pose proof (splitParamName_wrong_operator k c op vs Hs Hop) as He.
    split.
    + by eapply Build_fails.
    + intros Hr. destruct (Build_stops_at wl m k vs _ Hk Hr He)
        as (Rm & -> & _). eauto.
Qed.

Lemma Build_malformed_key_witness :
  (∃ R, Build whitelist {["a__b__c" := ["1"]]}
        = (Filter_zero, R, Some (ErrWrongQueryParamName "a__b__c")))
  ∧ (∃ R, Build whitelist {["col1__between" := ["1"]]}
          = (Filter_zero, R,
             Some (ErrWrongOperator "between" "col1__between"))).
Proof.
  split.
  - destruct (Build_malformed_key whitelist {["a__b__c" := ["1"]]}
                "a__b__c" ["1"]) as [H _]; [apply lookup_singleton_eq|].
    destruct H as [_ H]; [right; vm_compute; lia|].
    apply H, reached_singleton.
  - destruct (Build_malformed_key whitelist {["col1__between" := ["1"]]}
                "col1__between" ["1"]) as [_ H];
      [apply lookup_singleton_eq|].
    destruct (H "col1" "between") as [_ H']; [reflexivity|done..|].
    apply H', reached_singleton.
Defined.

(** C6: the key [c__like] of a whitelisted column [c] that contains no
    [__] and does not end in an underscore, with rewrite function [f].
    With exactly one value [v], [Build] on that parameter returns exactly
    [LOWER(f(c)) LIKE CONCAT('%', ?, '%')] with the bind values [[v]], nil
    rejected parameters and a nil error; in a request with other
    parameters that returns a nil error, that predicate is one of the
    predicates of the fragment and [v] its bind value, unless a later key
    with the same final column name overwrites it.  With more than one
    value [Build] fails with the zero [Filter]; the error is
    ["like operator only supports single value"] when the scan gets to
    that key. *)
Theorem Build_like wl c f :
  wl !! c = Some f →
  Contains c OPERATOR_SEPARATOR = false →
  last_byte c ≠ Some "_"%char →
  let k := c +:+ "__like" in
  let like := "LOWER(" +:+ f c +:+ ") LIKE CONCAT('%', ?, '%')" in
  (∀ v, Build wl {[k := [v]]} = (mkFilter like [v], None, None))
  ∧ (∀ m v F R,
       m !! k = Some [v] → Build wl m = (F, R, None) →
       (∀ k', is_Some (m !! k') → finalName wl k' = Some (f c) →
              String.le k' k) →
       ∃ before after : list filterParam,
         SqlFilters F
         = join " AND " ((Sql <$> before) ++ like :: (Sql <$> after))
         ∧ PlaceholderValues F
           = concat (Values <$> before) ++ [v] ++ concat (Values <$> after))
  ∧ (∀ m vs, m !! k = Some vs → 1 < length vs →
       (∃ e R, Build wl m = (Filter_zero, R, Some e))
       ∧ (reached m k →
          ∃ R, Build wl m
               = (Filter_zero, R,
                  Some (errorString
                          "like operator only supports single value")))).
Proof.
  intros Hwl Hc Hend k like.
  assert (Split k OPERATOR_SEPARATOR = [c; OPERATOR_LIKE]) as Hs
    by (by apply (Split_col_op c "like")).
  split_and!.
  - intros v.
    destruct (splitParamName_op k c OPERATOR_LIKE QUERY_TOKEN_LIKE [v])
      as [Hfp _]; [done..|].
    by rewrite (Build_single_ok wl k [v] _ f Hfp Hwl).
  - intros m v F R Hk HB Hlast.
    destruct (splitParamName_op k c OPERATOR_LIKE QUERY_TOKEN_LIKE [v])
      as [Hfp _]; [done..|].
    destruct (Build_surviving_predicate wl m k [v] _ f F R Hk Hfp Hwl Hlast HB)
      as (_ & before & after & -> & ->).
    exists before, after. by rewrite fmap_app, fmap_cons.
  - intros m vs Hk Hlen.
    pose proof (splitParamName_like_many k c vs Hs Hlen) as He. split.
    + by eapply Build_fails.
    + intros Hr. destruct (Build_stops_at wl m k vs _ Hk Hr He)
        as (Rm & -> & _). eauto.
Qed.

Lemma Build_like_witness :
  Build whitelist {["col1__like" := ["foo"]]}
  = (mkFilter "LOWER(col1) LIKE CONCAT('%', ?, '%')" ["foo"], None, None)
  ∧ ∃ R, Build whitelist {["col1__like" := ["foo"; "bar"]]}
         = (Filter_zero, R,
            Some (errorString "like operator only supports single value")).
Proof.
  destruct (Build_like whitelist "col1" (fun s => s))
    as (H1 & _ & H2); [reflexivity|reflexivity|discriminate|].
  split; [apply H1|].
  destruct (H2 {["col1__like" := ["foo"; "bar"]]} ["foo"; "bar"])
    as [_ H]; [apply lookup_singleton_eq|simpl; lia|].
  apply H, reached_singleton.
Defined.

(** C6 as stated fails for a whitelisted column that ends in an
    underscore: the key [a___like] splits at the first [__] into [a] and
    [_like], so [Build] returns [ErrWrongOperator] and no fragment, with
    one value, and the same error instead of the [like] error with two. *)
Lemma Build_like_counterexample :
  is_Some (underscore_whitelist !! "a_")
  ∧ Build underscore_whitelist {["a_" +:+ "__like" := ["foo"]]}
    = (Filter_zero, Some ∅, Some (ErrWrongOperator "_like" "a___like"))
  ∧ Build underscore_whitelist {["a_" +:+ "__like" := ["foo"; "bar"]]}
    = (Filter_zero, Some ∅, Some (ErrWrongOperator "_like" "a___like"))
  ∧ SqlFilters
      (Build underscore_whitelist {["a_" +:+ "__like" := ["foo"]]}).1.1
    ≠ "LOWER(a_) LIKE CONCAT('%', ?, '%')".
Proof.
  split_and!; [by eexists|by vm_compute..|].
  vm_compute. discriminate.
Qed.

(** C7: for a whitelisted column [c] that contains no [__] and does not
    end in an underscore, with rewrite function [f], and a single value
    [v]: [Build] on the key [c__in] with [[v]] and [Build] on the plain
    key [c] with [[v]] return the same fragment [f(c) = ?], the same bind
    values [[v]], nil rejected parameters and a nil error. *)
Theorem Build_in_same_as_plain wl c f v :
  wl !! c = Some f →
  Contains c OPERATOR_SEPARATOR = false →
  last_byte c ≠ Some "_"%char →
  Build wl {[c +:+ "__in" := [v]]}
  = (mkFilter (f c +:+ " = ?") [v], None, None)
  ∧ Build wl {[c := [v]]} = (mkFilter (f c +:+ " = ?") [v], None, None).
Proof.
  intros Hwl Hc Hend. split.
  - destruct (splitParamName_op (c +:+ "__in") c OPERATOR_IN
                QUERY_TOKEN_IN [v]) as [Hfp _]; [|done..|].
    { by apply (Split_col_op c "in"). }
    by rewrite (Build_single_ok wl _ [v] _ f Hfp Hwl).
  - destruct (splitParamName_plain c [v] Hc) as [Hfp _]; [done|].
    by rewrite (Build_single_ok wl _ [v] _ f Hfp Hwl).
Qed.

Lemma Build_in_same_as_plain_witness :
  Build whitelist {["col1__in" := ["1"]]}
  = (mkFilter "col1 = ?" ["1"], None, None)
  ∧ Build whitelist {["col1" := ["1"]]}
    = (mkFilter "col1 = ?" ["1"], None, None).
Proof.
  apply (Build_in_same_as_plain whitelist "col1" (fun s => s) "1");
    [reflexivity|reflexivity|discriminate].
Defined.

(** C7 as stated fails for a whitelisted column that ends in an
    underscore: the key [a___in] splits at the first [__] into [a] and
    [_in], so [Build] fails, while the plain key [a_] gives [a_ = ?]. *)
Lemma Build_in_same_as_plain_counterexample :
  is_Some (underscore_whitelist !! "a_")
  ∧ Build underscore_whitelist {["a_" +:+ "__in" := ["1"]]}
    = (Filter_zero, Some ∅, Some (ErrWrongOperator "_in" "a___in"))
  ∧ Build underscore_whitelist {["a_" := ["1"]]}
    = (mkFilter "a_ = ?" ["1"], None, None)
  ∧ SqlFilters (Build underscore_whitelist {["a_" +:+ "__in" := ["1"]]}).1.1
    ≠ SqlFilters (Build underscore_whitelist {["a_" := ["1"]]}).1.1.
Proof.
  split_and!; [by eexists|by vm_compute..|].
  vm_compute. discriminate.
Qed.

(** C8: for every whitelist, [Build] on an empty raw-parameters map
    returns the error [errAttemptedToPassEmptyFilteringParams] (with the
    zero [Filter] and nil rejected parameters). *)
Theorem Build_empty_params_error wl :
  Build wl ∅
  = (Filter_zero, None, Some errAttemptedToPassEmptyFilteringParams).
Proof. apply Build_empty. Qed.

(** C9: two keys [k1 < k2] of the request whose columns are whitelisted
    and rewritten to the same final name [n], on a call that returns a nil
    error.  The fragment has one predicate per final column name, so only
    one for [n]; it is built from the last key, in sorted order, with that
    final name ([k2] when no later key has it); the bind values are the
    values of the surviving parameters only; neither key is recorded in
    the rejected parameters.  In a request of just these two keys the
    result is the predicate and the values of [k2] alone. *)
Theorem Build_collision wl m k1 k2 vs1 vs2 fp1 fp2 f1 f2 F R :
  m !! k1 = Some vs1 → m !! k2 = Some vs2 → str_lt k1 k2 →
  splitParamName k1 vs1 = inr fp1 → splitParamName k2 vs2 = inr fp2 →
  wl !! Name fp1 = Some f1 → wl !! Name fp2 = Some f2 →
  f1 (Name fp1) = f2 (Name fp2) →
  Build wl m = (F, R, None) →
  let n := f2 (Name fp2) in
  let fp2' := mkFilterParam n (QueryToken fp2) vs2 in
  NoDup (fragmentColumns wl m)
  ∧ F = buildQueryFilters (validParamsOf wl m)
  ∧ PlaceholderValues F = concat (Values ∘ snd <$> validParamsOf wl m)
  ∧ ((∀ k, is_Some (m !! k) → finalName wl k = Some n → String.le k k2) →
     Omap_Get n (validParamsOf wl m) = Some fp2')
  ∧ (∀ Rm, R = Some Rm → Rm !! k1 = None ∧ Rm !! k2 = None)
  ∧ ((∀ k, is_Some (m !! k) → k = k1 ∨ k = k2) →
     F = mkFilter (Sql fp2') vs2 ∧ R = None).
Proof.
  intros Hk1 Hk2 Hlt Hfp1 Hfp2 Hwl1 Hwl2 Hsame HB n fp2'.
  pose proof HB as (Hm & Hfe & HF & HR & HV)%Build_nil_error.
  destruct (splitParamName_inr _ _ _ Hfp1) as (Hn1 & Hv1 & _).
  destruct (splitParamName_inr _ _ _ Hfp2) as (Hn2 & Hv2 & _).
  unfold fragmentColumns, Omap_Pairs. rewrite HV. split_and!.
  - by apply valid_fold_NoDup, NoDup_nil_2.
  - done.
  - by rewrite HF, buildQueryFilters_closed.
  - intros Hlast.
    destruct (orderedPairs_split m k2 vs2 Hk2)
      as (pre & post & -> & _ & Hpost).
    unfold fp2', n.
    rewrite (valid_fold_Get_last wl pre (k2, vs2) post [] fp2 f2);
      [by rewrite Hv2|done..|].
    intros [k vs] [Hk Hgt]%Hpost Hfin. simpl in Hfin.
    destruct Hgt as [_ Hnle]. apply Hnle, Hlast; eauto.
  - intros Rm ->. split; apply eq_None_not_Some; intros [vs Hvs].
    + eapply Build_rejected_sound in Hvs as [_ Hnone]; [|exact HB].
      rewrite <- Hn1 in Hnone. congruence.
    + eapply Build_rejected_sound in Hvs as [_ Hnone]; [|exact HB].
      rewrite <- Hn2 in Hnone. congruence.
  - intros Honly.
    assert (sortedKeys m = [k1; k2]) as Hkeys.
    { apply sortedKeys_unique.
      - repeat constructor. by destruct Hlt.
      - apply NoDup_cons. split; [|apply NoDup_singleton].
        intros ->%list_elem_of_singleton. by apply str_lt_irrefl in Hlt.
      - intros k. rewrite elem_of_cons, list_elem_of_singleton.
        split; [intros [->| ->]; eauto|apply Honly]. }
    assert (orderedPairs m = [(k1, vs1); (k2, vs2)]) as Hps.
    { unfold orderedPairs. rewrite Hkeys. simpl. by rewrite Hk1, Hk2. }
    rewrite Hps in HF, HR. cbn [fold_left] in HF, HR.
    unfold valid_step, removed_step in HF, HR. simpl in HF, HR.
    rewrite Hfp1, Hfp2, Hwl1, Hwl2 in HF, HR.
    rewrite Hsame in HF. cbn [Omap_Set] in HF.
    rewrite String.eqb_refl in HF.
    rewrite nil_if_empty_empty in HR. split; [|done].
    rewrite HF, buildQueryFilters_closed. simpl.
    unfold fp2', n. by rewrite Hv2, app_nil_r.
Qed.

Lemma Build_collision_witness :
  Build whitelist (<["col1" := ["1"]]> {["col1__in" := ["2"; "3"]]})
  = (mkFilter "col1 IN (?,?)" ["2"; "3"], None, None).
Proof.
  destruct (Build whitelist
              (<["col1" := ["1"]]> {["col1__in" := ["2"; "3"]]}))
    as [[F R] e] eqn:HB.
  assert (e = None) as -> by (vm_compute in HB; congruence).
  destruct (Build_collision whitelist
              (<["col1" := ["1"]]> {["col1__in" := ["2"; "3"]]})
              "col1" "col1__in" ["1"] ["2"; "3"]
              (mkFilterParam "col1" "IN" ["1"])
              (mkFilterParam "col1" "IN" ["2"; "3"])
              (fun s => s) (fun s => s) F R)
    as (_ & _ & _ & _ & _ & H);
    [reflexivity|reflexivity|split; [exact I|exact id]|reflexivity..
    |exact HB|].
  destruct H as [-> ->]; [|reflexivity].
  intros k [<-|[_ H]]%lookup_insert_is_Some; [by left|].
  apply lookup_singleton_is_Some in H. by right.
Defined.

(** C10: when [Build] returns a nil error and no parameter was rejected
    (every key's column is whitelisted) the returned rejected parameters
    are nil, and on a nil error they are never a non-nil empty map; when
    [Build] stops with the error of a key that does not parse before any
    parameter was rejected (every key sorting before it parses and has a
    whitelisted column) they are a non-nil empty map. *)
Theorem Build_rejected_nil_or_empty wl m :
  (∀ F R, Build wl m = (F, R, None) →
     R ≠ Some ∅
     ∧ ((∀ k, is_Some (m !! k) → is_Some (wl !! colOf k)) → R = None))
  ∧ (∀ k vs e,
       m !! k = Some vs → splitParamName k vs = inl e →
       (∀ k' vs', m !! k' = Some vs' → str_lt k' k →
                  parses k' vs' ∧ is_Some (wl !! colOf k')) →
       Build wl m = (Filter_zero, Some ∅, Some e)).
Proof.
  split.
  - intros F R (Hm & _ & _ & -> & _)%Build_nil_error. split.
    + intros [<- H]%nil_if_empty_Some. done.
    + intros Hall. rewrite removed_fold_whitelisted.
      * apply nil_if_empty_empty.
      * apply Forall_forall. intros [k vs] Hin%orderedPairs_elem.
        apply Hall. eauto.
  - intros k vs e Hk He Hbefore.
    destruct (Build_stops_at wl m k vs e Hk) as (Rm & -> & HRm);
      [by intros k' vs' H1 H2; apply (Hbefore k' vs')|done|].
    do 3 f_equal. apply map_eq. intros k'. rewrite lookup_empty.
    apply eq_None_not_Some. intros [vs' (H1 & H2 & H3)%HRm].
    destruct (Hbefore k' vs' H1 H2) as [_ [f Hf]]. congruence.
Qed.

Lemma Build_rejected_nil_or_empty_witness :
  (∀ F R, Build whitelist {["col1__like" := ["foo"]]} = (F, R, None) →
          R = None)
  ∧ Build whitelist {["col1__like" := ["foo"; "bar"]]}
    = (Filter_zero, Some ∅,
       Some (errorString "like operator only supports single value")).
Proof.
  split.
  - intros F R H.
    destruct (Build_rejected_nil_or_empty whitelist
                {["col1__like" := ["foo"]]}) as [H1 _].
    destruct (H1 F R H) as [_ H2]. apply H2.
    intros k [vs [<- _]%lookup_singleton_Some]. by eexists.
  - destruct (Build_rejected_nil_or_empty whitelist
                {["col1__like" := ["foo"; "bar"]]}) as [_ H2].
    apply (H2 "col1__like" ["foo"; "bar"]);
      [apply lookup_singleton_eq|reflexivity|].
    intros k' vs' [<- _]%lookup_singleton_Some Hlt.
    by apply str_lt_irrefl in Hlt.
Defined.

End claims.

(** * Further properties of the package *)

Section coverage.
Implicit Types (wl : AllowedColumns) (m : url_Values).

(** *** Constructing and parsing a parameter *)

(** When [newFilterParam] succeeds, and with what. *)
Lemma newFilterParam_inr_iff name op vs fp :
  newFilterParam name op vs = inr fp
  ↔ vs ≠ []
    ∧ (op = OPERATOR_LIKE → length vs = 1)
    ∧ ∃ tok, (op = "" ∧ tok = QUERY_TOKEN_IN ∨ OPERATORS !! op = Some tok)
             ∧ fp = mkFilterParam name tok vs.
Proof.
  unfold newFilterParam. destruct vs as [|v vs]; simpl.
  { split; [done|]. by intros [? _]. }
  destruct (String.eqb_spec op "") as [->|Hop].
  { split.
    - intros [= <-]. split_and!; [done|done|]. exists QUERY_TOKEN_IN. auto.
    - intros (_ & _ & tok & [[_ ->]|Ht] & ->); [done|].
      by vm_compute in Ht. }
  destruct (String.eqb_spec op OPERATOR_LIKE) as [->|Hlike]; simpl.
  - destruct vs as [|v' vs]; simpl.
    + change (OPERATORS !! OPERATOR_LIKE) with (Some QUERY_TOKEN_LIKE).
      split.
      * intros [= <-]. split_and!; [done|done|]. exists QUERY_TOKEN_LIKE. auto.
      * intros (_ & _ & tok & [[? _]|[= <-]] & ->); done.
    + split; [done|]. intros (_ & H & _). specialize (H eq_refl). done.
  - destruct (OPERATORS !! op) as [tok|] eqn:E.
    + split.
      * intros [= <-]. split_and!; [done|done|]. exists tok. auto.
      * intros (_ & _ & tok' & [[? _]|[= <-]] & ->); done.
    + split; [done|]. intros (_ & _ & tok' & [[? _]|?] & _); done.
Qed.

(** X1: [newFilterParam] succeeds exactly on at least one value, an empty
    operator or one of the table, and a single value under [like]; the
    parameter then holds the name and the values as given, with IN for the
    empty operator and the table's token otherwise. *)
Theorem newFilterParam_ok_iff name op vs fp :
  newFilterParam name op vs = inr fp
  ↔ vs ≠ []
    ∧ (op = OPERATOR_LIKE → length vs = 1)
    ∧ ∃ tok, (op = "" ∧ tok = QUERY_TOKEN_IN ∨ OPERATORS !! op = Some tok)
             ∧ fp = mkFilterParam name tok vs.
Proof. apply newFilterParam_inr_iff. Qed.

Lemma Split_from_not_nil skip s : Split_from OPERATOR_SEPARATOR skip s ≠ [].
Proof.
  pose proof (Split_from_length skip s) as H. intros E. rewrite E in H.
  simpl in H. lia.
Qed.

Lemma join_cons_byte sep c seg rest :
  join sep (String c seg :: rest) = String c (join sep (seg :: rest)).
Proof. by destruct rest. Qed.

(** Joining the segments with the separator gives the key back. *)
Lemma join_Split s : join "__" (Split s OPERATOR_SEPARATOR) = s.
Proof.
  unfold Split. remember (String.length s) as n eqn:Hn.
  assert (String.length s ≤ n) as Hle by lia. clear Hn.
  revert s Hle. induction n as [|n IH]; intros s Hle.
  { destruct s; [done|simpl in Hle; lia]. }
  destruct s as [|c s]; [done|]. simpl in Hle. cbn [Split_from].
  destruct (String.prefix OPERATOR_SEPARATOR (String c s)) eqn:Hp.
  - apply prefix_sep in Hp as [s' Hs].
    change ("__" +:+ s') with (String "_" (String "_" s')) in Hs.
    injection Hs as -> ->. simpl String.length. cbn [Nat.sub Split_from].
    pose proof (IH s') as IH'. simpl in Hle.
    pose proof (Split_from_not_nil 0 s') as Hne.
    destruct (Split_from OPERATOR_SEPARATOR 0 s') as [|seg rest]; [done|].
    change (join "__" ("" :: seg :: rest))
      with ("" +:+ "__" +:+ join "__" (seg :: rest)).
    rewrite IH' by lia. done.
  - pose proof (IH s) as IH'.
    pose proof (Split_from_not_nil 0 s) as Hne.
    destruct (Split_from OPERATOR_SEPARATOR 0 s) as [|seg rest]; [done|].
    rewrite join_cons_byte, IH' by lia. done.
Qed.

Lemma Contains_Count s :
  Contains s OPERATOR_SEPARATOR = true → 0 < Count s OPERATOR_SEPARATOR.
Proof.
  unfold Count. induction s as [|c s IH]; [done|].
  cbn [Contains Count_from].
  destruct (String.prefix OPERATOR_SEPARATOR (String c s)); [lia|].
  simpl. apply IH.
Qed.

(** The errors of [splitParamName], case by case. *)
Lemma splitParamName_inl_cases k vs e :
  splitParamName k vs = inl e →
  (e = ErrWrongQueryParamName k ∧ 2 < length (Split k OPERATOR_SEPARATOR))
  ∨ (∃ c op, e = ErrWrongOperator op k
             ∧ Split k OPERATOR_SEPARATOR = [c; op]
             ∧ OPERATORS !! op = None)
  ∨ (e = errorString "passed empty values to filterParam" ∧ vs = []
     ∧ length (Split k OPERATOR_SEPARATOR) ≤ 2)
  ∨ (e = errorString "like operator only supports single value"
     ∧ 1 < length vs
     ∧ ∃ c, Split k OPERATOR_SEPARATOR = [c; OPERATOR_LIKE]).
Proof.
  unfold splitParamName.
  destruct (Contains k OPERATOR_SEPARATOR) eqn:Hc; simpl.
  - pose proof (Contains_Count k Hc) as Hcount.
    pose proof (Split_length k) as Hlen.
    destruct (Nat.eqb_spec (length (Split k OPERATOR_SEPARATOR)) 2)
      as [H2|H2]; simpl.
    + destruct (Split k OPERATOR_SEPARATOR) as [|c [|op [|? ?]]] eqn:Hs;
        try done. simpl.
      destruct (OPERATORS !! op) as [tok|] eqn:Hop.
      * unfold newFilterParam. destruct vs as [|v vs]; simpl.
        { intros [= <-]. right; right; left. split_and!; [done|done|].
          simpl. lia. }
        destruct (String.eqb_spec op "") as [->|_]; [done|].
        destruct (String.eqb_spec op OPERATOR_LIKE) as [->|_]; simpl.
        -- destruct vs as [|v' vs]; simpl.
           ++ by rewrite Hop.
           ++ intros [= <-]. right; right; right.
              split_and!; [done|simpl; lia|by exists c].
        -- by rewrite Hop.
      * intros [= <-]. right; left. by exists c, op.
    + intros [= <-]. left. split; [done|lia].
  - rewrite (Split_no_sep _ Hc). simpl. unfold newFilterParam.
    destruct vs as [|v vs]; simpl; [|done].
    intros [= <-]. right; right; left. split_and!; [done|done|]. simpl. lia.
Qed.

(** X2: the errors of [splitParamName], each with the exact condition
    under which it is returned; the conditions exclude one another, in the
    order the checks are made.  A key of more than two segments gives
    [ErrWrongQueryParamName] with the key, whatever the values.  A key of
    two segments with an operator outside the table gives
    [ErrWrongOperator] with that operator and the full key, whatever the
    values.  A key without separator, or of two segments with an operator
    of the table, gives "passed empty values to filterParam" when it has no
    value, and a key of two segments with the operator [like] gives "like
    operator only supports single value" when it has several.  Every other
    input parses: no other error is returned, so the [ErrWrongOperator] of
    [newFilterParam], which would carry the column instead of the key, is
    never reached. *)
Theorem splitParamName_errors k vs e :
  splitParamName k vs = inl e
  ↔ (2 < length (Split k OPERATOR_SEPARATOR)
     ∧ e = ErrWrongQueryParamName k)
    ∨ (∃ c op, Split k OPERATOR_SEPARATOR = [c; op]
               ∧ OPERATORS !! op = None
               ∧ e = ErrWrongOperator op k)
    ∨ ((Contains k OPERATOR_SEPARATOR = false
        ∨ ∃ c op, Split k OPERATOR_SEPARATOR = [c; op]
                  ∧ is_Some (OPERATORS !! op))
       ∧ vs = []
       ∧ e = errorString "passed empty values to filterParam")
    ∨ ((∃ c, Split k OPERATOR_SEPARATOR = [c; OPERATOR_LIKE])
       ∧ 1 < length vs
       ∧ e = errorString "like operator only supports single value").
Proof.
  split.
  - unfold splitParamName.
    destruct (Contains k OPERATOR_SEPARATOR) eqn:Hc; simpl.
    + pose proof (Contains_Count k Hc) as Hcount.
      pose proof (Split_length k) as Hlen.
      destruct (Nat.eqb_spec (length (Split k OPERATOR_SEPARATOR)) 2)
        as [H2|H2]; simpl.
      * destruct (Split k OPERATOR_SEPARATOR) as [|c [|op [|? ?]]] eqn:Hs;
          try done. simpl.
        destruct (OPERATORS !! op) as [tok|] eqn:Hop.
        -- unfold newFilterParam. destruct vs as [|v vs]; simpl.
           { intros [= <-]. right; right; left.
             split_and!; [|done..]. right. exists c, op. by rewrite Hop. }
           destruct (String.eqb_spec op "") as [->|_]; [done|].
           destruct (String.eqb_spec op OPERATOR_LIKE) as [->|_]; simpl.
           ++ destruct vs as [|v' vs]; simpl.
              ** by rewrite Hop.
              ** intros [= <-]. right; right; right.
                 split_and!; [by exists c|simpl; lia|done].
           ++ by rewrite Hop.
        -- intros [= <-]. right; left. by exists c, op.
      * intros [= <-]. left. split; [lia|done].
    + rewrite (Split_no_sep _ Hc). simpl. unfold newFilterParam.
      destruct vs as [|v vs]; simpl; [|done].
      intros [= <-]. right; right; left. split_and!; [by left|done..].
  - intros [[Hlen ->]|[(c & op & Hs & Hop & ->)|
                       [([Hc|(c & op & Hs & [tok Hop])] & -> & ->)|
                        ([c Hs] & Hlen & ->)]]].
    + by apply splitParamName_wrong_name.
    + by apply (splitParamName_wrong_operator k c).
    + unfold splitParamName. by rewrite Hc, (Split_no_sep _ Hc).
    + unfold splitParamName.
      rewrite Split_two_Contains by (rewrite Hs; simpl; lia).
      rewrite Hs. simpl. by rewrite Hop.
    + by apply (splitParamName_like_many k c).
Qed.

(** X3: the key of a parameter that parses is made of what was parsed: a
    key without the separator is the column itself, with the token IN; any
    other key is the column, the separator and an operator of the table,
    whose token the parameter holds. *)
Theorem splitParamName_key_round_trip k vs fp :
  splitParamName k vs = inr fp →
  Values fp = vs
  ∧ ((Contains k OPERATOR_SEPARATOR = false ∧ k = Name fp
      ∧ QueryToken fp = QUERY_TOKEN_IN)
     ∨ (∃ op, k = Name fp +:+ OPERATOR_SEPARATOR +:+ op
              ∧ OPERATORS !! op = Some (QueryToken fp))).
Proof.
  intros H. destruct (splitParamName_inr _ _ _ H) as (_ & Hv & _).
  split; [done|]. revert H. unfold splitParamName.
  destruct (Contains k OPERATOR_SEPARATOR) eqn:Hc; simpl.
  - destruct (Nat.eqb_spec (length (Split k OPERATOR_SEPARATOR)) 2)
      as [H2|H2]; simpl; [|done].
    pose proof (join_Split k) as Hj.
    destruct (Split k OPERATOR_SEPARATOR) as [|c [|op [|? ?]]] eqn:Hs;
      try done. simpl in *.
    destruct (OPERATORS !! op) as [tok|] eqn:Hop; [|done].
    intros Hn. apply newFilterParam_inr_iff in Hn
      as (_ & _ & tok' & [[-> _]|Htok] & ->); [by vm_compute in Hop|].
    right. exists op. simpl. split; [by rewrite <- Hj|done].
  - rewrite (Split_no_sep _ Hc). simpl. intros Hn.
    apply newFilterParam_inr_iff in Hn
      as (_ & _ & tok' & [[_ ->]|Htok] & ->); [|by vm_compute in Htok].
    left. done.
Qed.

Lemma splitParamName_key_round_trip_witness :
  ∃ op, "col1__not_in" = "col1" +:+ OPERATOR_SEPARATOR +:+ op
        ∧ OPERATORS !! op = Some "NOT IN".
Proof.
  destruct (splitParamName_key_round_trip "col1__not_in" ["1"]
              (mkFilterParam "col1" "NOT IN" ["1"]))
    as [_ [[H _]|H]]; [reflexivity|discriminate|exact H].
Defined.

(** *** When [Build] fails *)

Lemma firstError_Some (ps : list (string * list string)) e :
  firstError ps = Some e →
  ∃ pre k vs post,
    ps = pre ++ (k, vs) :: post
    ∧ Forall (fun p => parses p.1 p.2) pre
    ∧ splitParamName k vs = inl e.
Proof.
  induction ps as [|[k vs] ps IH]; [done|]. cbn [firstError].
  destruct (splitParamName k vs) as [e'|fp] eqn:E.
  - intros [= ->]. by exists [], k, vs, ps.
  - intros (pre & k' & vs' & post & -> & Hpre & He)%IH.
    exists ((k, vs) :: pre), k', vs', post. split_and!; [done| |done].
    constructor; [by exists fp|done].
Qed.

(** X4: whether [Build] fails, and with which error, does not depend on the
    whitelist; it returns a nil error exactly when the request is not empty
    and every key of it parses. *)
Theorem Build_error_whitelist_independent wl1 wl2 m :
  (Build wl1 m).2 = (Build wl2 m).2
  ∧ ((Build wl1 m).2 = None
     ↔ m ≠ ∅ ∧ ∀ k vs, m !! k = Some vs → parses k vs).
Proof.
  destruct (decide (m = ∅)) as [->|Hm].
  { rewrite !Build_empty. simpl. split; [done|]. split; [done|]. by intros [? _]. }
  rewrite !Build_closed by done. simpl.
  destruct (firstError (orderedPairs m)) as [e|] eqn:Hfe; simpl.
  - split; [done|]. split; [done|]. intros [_ Hall].
    assert (firstError (orderedPairs m) = None) as H; [|congruence].
    apply firstError_None, Forall_forall.
    intros [k vs] Hin%orderedPairs_elem. by apply Hall.
  - split; [done|]. split; [|done]. intros _. split; [done|].
    apply firstError_None in Hfe. rewrite Forall_forall in Hfe.
    intros k vs Hk%orderedPairs_elem. by apply Hfe in Hk.
Qed.

(** X5: where an error of [Build] comes from.  The [Filter] is the zero
    value; either the request is empty, the error is
    [errAttemptedToPassEmptyFilteringParams] and the rejected parameters are
    nil, or the error is that of [splitParamName] on the least key, in
    sorted order, that does not parse, and the rejected parameters are a
    non-nil map of exactly the parameters before that key whose column is
    not whitelisted. *)
Theorem Build_error_source wl m F R e :
  Build wl m = (F, R, Some e) →
  F = Filter_zero
  ∧ ((m = ∅ ∧ e = errAttemptedToPassEmptyFilteringParams ∧ R = None)
     ∨ (∃ k vs Rm,
          m !! k = Some vs ∧ splitParamName k vs = inl e ∧ reached m k
          ∧ R = Some Rm
          ∧ ∀ k' vs', Rm !! k' = Some vs'
              ↔ m !! k' = Some vs' ∧ str_lt k' k ∧ wl !! colOf k' = None)).
Proof.
  intros HB. destruct (decide (m = ∅)) as [->|Hm].
  { rewrite Build_empty in HB. simplify_eq. split; [done|]. by left. }
  pose proof HB as HB'. rewrite Build_closed in HB' by done. simpl in HB'.
  destruct (firstError (orderedPairs m)) as [e'|] eqn:Hfe; [|done].
  assert (F = Filter_zero ∧ e' = e) as [-> ->] by (by simplify_eq).
  clear HB'. split; [done|]. right.
  apply firstError_Some in Hfe as (pre & k & vs & post & Hps & Hpre & He).
  assert (m !! k = Some vs) as Hk.
  { apply orderedPairs_elem. rewrite Hps, elem_of_app, elem_of_cons. auto. }
  assert (reached m k) as Hr.
  { intros k' vs' Hk' Hlt. apply orderedPairs_elem in Hk'.
    rewrite Hps, elem_of_app, elem_of_cons in Hk'.
    rewrite Forall_forall in Hpre.
    destruct Hk' as [Hin|[[= -> ->]|Hin]].
    - by apply Hpre in Hin.
    - by apply str_lt_irrefl in Hlt.
    - pose proof (sortedKeys_strict m) as Hs.
      rewrite <- orderedPairs_keys, Hps, fmap_app, fmap_cons in Hs.
      apply StronglySorted_app in Hs as (_ & _ & Hs).
      apply StronglySorted_cons in Hs as [Hgt _].
      rewrite Forall_forall in Hgt.
      assert (str_lt k k') as Hlt'.
      { apply Hgt, list_elem_of_fmap. by exists (k', vs'). }
      destruct (str_lt_irrefl k). by etrans. }
  destruct (Build_stops_at wl m k vs e Hk Hr He) as (Rm & HB' & HRm).
  rewrite HB in HB'. assert (R = Some Rm) as -> by (by simplify_eq).
  by exists k, vs, Rm.
Qed.

Lemma Build_error_source_witness :
  Filter_zero = Filter_zero
  ∧ (({["a__b__c" := ["1"]]} : url_Values) = ∅
     ∧ ErrWrongQueryParamName "a__b__c"
       = errAttemptedToPassEmptyFilteringParams
     ∧ Some (∅ : url_Values) = None
     ∨ ∃ (k : string) (vs : list string) (Rm : url_Values),
         ({["a__b__c" := ["1"]]} : url_Values) !! k = Some vs
         ∧ splitParamName k vs = inl (ErrWrongQueryParamName "a__b__c")
         ∧ reached {["a__b__c" := ["1"]]} k
         ∧ Some (∅ : url_Values) = Some Rm
         ∧ ∀ k' vs', Rm !! k' = Some vs'
             ↔ ({["a__b__c" := ["1"]]} : url_Values) !! k' = Some vs'
               ∧ str_lt k' k ∧ whitelist !! colOf k' = None).
Proof.
  apply (Build_error_source whitelist {["a__b__c" := ["1"]]}
           Filter_zero (Some ∅) (ErrWrongQueryParamName "a__b__c")).
  by vm_compute.
Defined.

(** X6: a request none of whose columns is whitelisted, every key of which
    parses, is no error: the fragment and the bind values are empty and the
    rejected parameters are the whole request. *)
Theorem Build_all_rejected wl m :
  m ≠ ∅ →
  (∀ k vs, m !! k = Some vs → parses k vs ∧ wl !! colOf k = None) →
  Build wl m = (mkFilter "" [], Some m, None).
Proof.
  intros Hm Hall. rewrite Build_closed by done. simpl.
  assert (Forall (fun p => parses p.1 p.2) (orderedPairs m)) as Hps.
  { apply Forall_forall. intros [k vs] Hin%orderedPairs_elem.
    by apply Hall in Hin as [? _]. }
  rewrite (proj2 (firstError_None _) Hps).
  assert (fold_left (valid_step wl) (orderedPairs m) [] = []) as ->.
  { assert (∀ p, p ∈ orderedPairs m → wl !! colOf p.1 = None) as Hrej.
    { intros [k vs] Hin%orderedPairs_elem. by apply Hall in Hin as [_ ?]. }
    clear -Hrej. induction (orderedPairs m) as [|p ps IH]; [done|].
    cbn [fold_left]. rewrite valid_step_rejected
      by (apply Hrej, list_elem_of_here).
    apply IH. intros q Hq. by apply Hrej, list_elem_of_further. }
  assert (fold_left (removed_step wl) (orderedPairs m) ∅ = m) as ->.
  { apply map_eq. intros k. apply option_eq. intros vs.
    rewrite removed_fold_lookup; [|apply orderedPairs_NoDup|done].
    rewrite orderedPairs_elem. split; [by intros [? _]|].
    intros Hk. split; [done|]. by apply Hall in Hk as [_ ?]. }
  by rewrite nil_if_empty_nonempty.
Qed.

Lemma Build_all_rejected_witness :
  Build ∅ example_params = (mkFilter "" [], Some example_params, None).
Proof.
  apply Build_all_rejected.
  - intros E.
    assert (example_params !! "col3" = None) as H
      by (rewrite E; apply lookup_empty).
    vm_compute in H. discriminate.
  - intros k vs Hk. split; [|apply lookup_empty].
    unfold example_params in Hk.
    apply lookup_insert_Some in Hk as [[<- <-]|[_ Hk]]; [by eexists|].
    apply lookup_insert_Some in Hk as [[<- <-]|[_ Hk]]; [by eexists|].
    apply lookup_insert_Some in Hk as [[<- <-]|[_ Hk]]; [by eexists|].
    by rewrite lookup_empty in Hk.
Defined.

(** *** The assembler and the phrase for several values *)

Lemma join_app sep (l1 l2 : list string) :
  l1 ≠ [] → l2 ≠ [] →
  join sep (l1 ++ l2) = join sep l1 +:+ sep +:+ join sep l2.
Proof.
  intros H1 H2. induction l1 as [|x l1 IH]; [done|].
  destruct l1 as [|y l1].
  - destruct l2; [done|]. done.
  - change (join sep ((x :: y :: l1) ++ l2))
      with (x +:+ sep +:+ join sep ((y :: l1) ++ l2)).
    rewrite IH by done.
    change (join sep (x :: y :: l1)) with (x +:+ sep +:+ join sep (y :: l1)).
    by rewrite !str_app_assoc.
Qed.

(** X7: [buildQueryFilters] on any ordered map.  The fragment is the
    predicates in map order with [" AND "] between them and nowhere else,
    the bind values are the parameters' values one after the other; so the
    result for two non-empty maps put one after the other is the two
    fragments joined with [" AND "] and the two value slices appended, and
    the result for the empty map is the empty fragment with no values. *)
Theorem buildQueryFilters_compose (V1 V2 : Omap filterParam) :
  SqlFilters (buildQueryFilters V1) = join " AND " (Sql ∘ snd <$> V1)
  ∧ PlaceholderValues (buildQueryFilters V1) = concat (Values ∘ snd <$> V1)
  ∧ buildQueryFilters [] = mkFilter "" []
  ∧ PlaceholderValues (buildQueryFilters (V1 ++ V2))
    = PlaceholderValues (buildQueryFilters V1)
      ++ PlaceholderValues (buildQueryFilters V2)
  ∧ (V1 ≠ [] → V2 ≠ [] →
     SqlFilters (buildQueryFilters (V1 ++ V2))
     = SqlFilters (buildQueryFilters V1) +:+ " AND "
       +:+ SqlFilters (buildQueryFilters V2)).
Proof.
  rewrite !buildQueryFilters_closed. simpl. split_and!; [done..| |].
  - by rewrite fmap_app, concat_app.
  - intros H1 H2. rewrite fmap_app. apply join_app.
    + by destruct V1.
    + by destruct V2.
Qed.

Lemma buildQueryFilters_compose_witness :
  SqlFilters (buildQueryFilters
                [("col1", mkFilterParam "col1" "IN" ["1"; "2"]);
                 ("col2", mkFilterParam "col2" "NOT IN" ["3"])])
  = "col1 IN (?,?)" +:+ " AND " +:+ "col2 <> ?".
Proof.
  destruct (buildQueryFilters_compose
              [("col1", mkFilterParam "col1" "IN" ["1"; "2"])]
              [("col2", mkFilterParam "col2" "NOT IN" ["3"])])
    as (_ & _ & _ & _ & H).
  apply H; discriminate.
Defined.

(** X8: with no values the trim of [buildPhrase] finds no comma and cuts
    the opening parenthesis instead.  For a parameter without values whose
    token is ASCII and not LIKE, the phrase is the column, the token with
    its letters a..z in upper case and a lone closing parenthesis, and so
    is the fragment [Sql] gives; for the tokens IN and NOT IN of the table
    these are [<column> IN )] and [<column> NOT IN )]. *)
Theorem Sql_no_values (fp : filterParam) :
  Values fp = [] → QueryToken fp ≠ QUERY_TOKEN_LIKE →
  isASCII (QueryToken fp) = true →
  buildPhrase (Name fp) (QueryToken fp) []
  = Name fp +:+ " " +:+ ToUpper (QueryToken fp) +:+ " )"
  ∧ Sql fp = Name fp +:+ " " +:+ ToUpper (QueryToken fp) +:+ " )"
  ∧ (QueryToken fp = QUERY_TOKEN_IN → Sql fp = Name fp +:+ " IN )")
  ∧ (QueryToken fp = QUERY_TOKEN_NOT_IN → Sql fp = Name fp +:+ " NOT IN )").
Proof.
  intros Hv Hlike _.
  assert (buildPhrase (Name fp) (QueryToken fp) []
          = Name fp +:+ " " +:+ ToUpper (QueryToken fp) +:+ " )") as Hb.
  { unfold buildPhrase. cbn [fold_left].
    change " (" with (" " +:+ "("). rewrite <- !str_app_assoc.
    rewrite drop_last_byte_snoc. by rewrite !str_app_assoc. }
  assert (Sql fp = Name fp +:+ " " +:+ ToUpper (QueryToken fp) +:+ " )")
    as HS.
  { unfold Sql. rewrite Hv. simpl.
    by destruct (String.eqb_spec (QueryToken fp) QUERY_TOKEN_LIKE). }
  split_and!; [done|done|..]; intros Htok; rewrite HS, Htok; reflexivity.
Qed.

Lemma Sql_no_values_witness :
  Sql (mkFilterParam "col1" "IN" []) = "col1 IN )".
Proof.
  destruct (Sql_no_values (mkFilterParam "col1" "IN" [])) as (_ & _ & H & _);
    [reflexivity|discriminate|reflexivity|].
  apply H. reflexivity.
Defined.

(** *** The ordered map of valid parameters *)

Lemma valid_step_entry wl V p :
  valid_step wl V p
  = match entryOf wl p with
    | Some e => Omap_Set e.1 e.2 V
    | None => V
    end.
Proof.
  unfold valid_step, entryOf.
  destruct (splitParamName p.1 p.2) as [|fp]; [done|].
  by destruct (wl !! Name fp).
Qed.

Lemma entryOf_Some wl p e :
  entryOf wl p = Some e →
  Name e.2 = e.1 ∧ wf_param e.2 ∧ Values e.2 = p.2
  ∧ finalName wl p.1 = Some e.1.
Proof.
  unfold entryOf.
  destruct (splitParamName p.1 p.2) as [|fp] eqn:Hfp; [done|].
  destruct (splitParamName_inr _ _ _ Hfp) as (Hn & Hv & Hwf).
  destruct (wl !! Name fp) as [f|] eqn:Hwl; [|done].
  intros [= <-]. simpl. split_and!; [done|done|done|].
  unfold finalName. rewrite <- Hn, Hwl. done.
Qed.

Lemma Omap_Set_Forall {D} (Q : string * D → Prop) k d (V : Omap D) :
  Forall Q V → Q (k, d) → Forall Q (Omap_Set k d V).
Proof.
  intros HV Hq. induction HV as [|[k' d'] V Hd HV IH]; cbn [Omap_Set].
  - constructor; [done|constructor].
  - destruct (String.eqb_spec k' k); by constructor.
Qed.

Lemma valid_fold_Forall wl (Q : string * filterParam → Prop) ps V :
  Forall Q V →
  (∀ p e, p ∈ ps → entryOf wl p = Some e → Q e) →
  Forall Q (fold_left (valid_step wl) ps V).
Proof.
  revert V. induction ps as [|p ps IH]; intros V HV Hps; [done|].
  cbn [fold_left]. apply IH.
  - rewrite valid_step_entry. destruct (entryOf wl p) as [[n fp]|] eqn:E;
      [|done].
    apply Omap_Set_Forall; [done|]. eapply Hps; [apply list_elem_of_here|done].
  - intros q e Hq. apply Hps. by apply list_elem_of_further.
Qed.

Lemma validParamsOf_fold wl m :
  ∃ ps, ps `prefix_of` orderedPairs m
        ∧ validParamsOf wl m = fold_left (valid_step wl) ps [].
Proof.
  destruct (decide (m = ∅)) as [->|Hm].
  { exists []. split; [apply prefix_nil|].
    unfold validParamsOf, getValidQueryParams, getOrderedGetParams.
    by rewrite sortedKeys_empty. }
  unfold validParamsOf. rewrite getValidQueryParams_closed by done. simpl.
  destruct (firstError (orderedPairs m)).
  - exists (okPrefix (orderedPairs m)). split; [apply okPrefix_prefix|done].
  - by exists (orderedPairs m).
Qed.

(** X9: what [Build] hands to [buildQueryFilters], on every request and
    whitelist.  The final column names are distinct; every parameter is
    stored under its own name, has at least one value, a token among IN,
    NOT IN and LIKE, exactly one value under LIKE, and holds the values of
    a key of the request whose whitelisted column is rewritten to that
    name.  (So the phrase without values is never part of a fragment.) *)
Theorem validParams_invariant wl m :
  NoDup (fragmentColumns wl m)
  ∧ Forall (fun e =>
              Name e.2 = e.1 ∧ wf_param e.2
              ∧ ∃ k, m !! k = Some (Values e.2)
                     ∧ finalName wl k = Some e.1)
      (validParamsOf wl m).
Proof.
  destruct (validParamsOf_fold wl m) as (ps & [rest Hps] & HV).
  unfold fragmentColumns, Omap_Pairs. rewrite HV. split.
  - by apply valid_fold_NoDup, NoDup_nil_2.
  - apply valid_fold_Forall; [constructor|].
    intros [k vs] e Hin (Hn & Hwf & Hv & Hfin)%entryOf_Some.
    split_and!; [done..|]. exists k. simpl in *. split; [|done].
    rewrite Hv. apply orderedPairs_elem. rewrite Hps.
    apply elem_of_app. by left.
Qed.

(** *** The ordered request *)

Lemma Omap_Get_None {D} k (V : Omap D) : k ∉ V.*1 → Omap_Get k V = None.
Proof.
  induction V as [|[k' d] V IH]; [done|]. cbn [fmap list_fmap Omap_Get].
  rewrite not_elem_of_cons. simpl. intros [Hne Hk].
  destruct (String.eqb_spec k' k); [done|]. by apply IH.
Qed.

Lemma Omap_Get_elem {D} k d (V : Omap D) :
  NoDup V.*1 → (k, d) ∈ V → Omap_Get k V = Some d.
Proof.
  induction V as [|[k' d'] V IH]; [by intros _ ?%elem_of_nil|].
  cbn [fmap list_fmap Omap_Get]. simpl.
  rewrite NoDup_cons, elem_of_cons. intros [Hk' Hnd] [[= -> ->]|Hin].
  - by rewrite String.eqb_refl.
  - destruct (String.eqb_spec k' k) as [->|Hne]; [|by apply IH].
    destruct Hk'. apply list_elem_of_fmap. by exists (k, d).
Qed.

(** X10: the ordered map [getOrderedGetParams] builds.  Its keys ascend
    strictly in the bytewise order, looking a key up in it gives what the
    request holds for that key (nothing for a key the request lacks), and
    it has as many entries as the request. *)
Theorem getOrderedGetParams_sorted_lookup m :
  StronglySorted str_lt (Omap_Pairs (getOrderedGetParams m)).*1
  ∧ (∀ k, Omap_Get k (getOrderedGetParams m) = m !! k)
  ∧ Omap_Len (getOrderedGetParams m) = size m.
Proof.
  change (Omap_Len (getOrderedGetParams m))
    with (length (Omap_Pairs (getOrderedGetParams m))).
  change (∀ k, Omap_Get k (Omap_Pairs (getOrderedGetParams m)) = m !! k)
    with (∀ k, Omap_Get k (getOrderedGetParams m) = m !! k).
  rewrite getOrderedGetParams_pairs. split_and!.
  - rewrite orderedPairs_keys. apply sortedKeys_strict.
  - intros k. change (Omap_Get k (getOrderedGetParams m))
      with (Omap_Get k (Omap_Pairs (getOrderedGetParams m))).
    rewrite getOrderedGetParams_pairs.
    destruct (m !! k) as [vs|] eqn:Hk.
    + apply Omap_Get_elem; [apply orderedPairs_NoDup|].
      by apply orderedPairs_elem.
    + apply Omap_Get_None. rewrite orderedPairs_keys, sortedKeys_elem, Hk.
      by intros [? ?].
  - unfold orderedPairs. rewrite length_fmap, sortedKeys_Permutation.
    by rewrite length_fmap, length_map_to_list.
Qed.

(** *** Valid and rejected parameters *)

Lemma keep_first_step_elem acc l n :
  n ∈ fold_left keep_first_step l acc ↔ n ∈ acc ∨ n ∈ l.
Proof.
  revert acc. induction l as [|x l IH]; intros acc; cbn [fold_left].
  - rewrite elem_of_nil. tauto.
  - rewrite IH, elem_of_cons. unfold keep_first_step.
    case_decide as Hx.
    + split; [tauto|]. intros [?|[->|?]]; auto.
    + rewrite elem_of_app, list_elem_of_singleton. tauto.
Qed.

Lemma keep_first_elem l n : n ∈ keep_first l ↔ n ∈ l.
Proof.
  unfold keep_first. rewrite keep_first_step_elem, elem_of_nil. tauto.
Qed.

(** X11: on a nil error every parameter of the request ends on exactly one
    side.  A key whose column is not whitelisted is in the rejected
    parameters with its values; a key whose column is whitelisted has its
    final column name among the predicates of the fragment; and every
    predicate of the fragment is for the final column name of some key of
    the request. *)
Theorem Build_partition wl m F R :
  Build wl m = (F, R, None) →
  (∀ k vs, m !! k = Some vs →
     (wl !! colOf k = None ∧ ∃ Rm, R = Some Rm ∧ Rm !! k = Some vs)
     ∨ (∃ n, finalName wl k = Some n ∧ n ∈ fragmentColumns wl m))
  ∧ (∀ n, n ∈ fragmentColumns wl m →
          ∃ k, is_Some (m !! k) ∧ finalName wl k = Some n).
Proof.
  intros (Hm & Hfe & _ & -> & HV)%Build_nil_error.
  apply firstError_None in Hfe.
  pose proof (valid_fold_columns wl (orderedPairs m) [] Hfe) as Hcols.
  rewrite orderedPairs_keys in Hcols. simpl in Hcols.
  fold (keep_first (omap (finalName wl) (sortedKeys m))) in Hcols.
  unfold fragmentColumns, Omap_Pairs. rewrite HV, Hcols. split.
  - intros k vs Hk. destruct (wl !! colOf k) as [f|] eqn:Hwl.
    + right. exists (f (colOf k)).
      assert (finalName wl k = Some (f (colOf k))) as Hfin
        by (unfold finalName; by rewrite Hwl).
      split; [done|]. apply keep_first_elem, list_elem_of_omap.
      exists k. split; [|done]. apply sortedKeys_elem. eauto.
    + left. split; [done|].
      assert (fold_left (removed_step wl) (orderedPairs m) ∅ !! k = Some vs)
        as Hin.
      { apply removed_fold_lookup; [apply orderedPairs_NoDup|done|].
        split; [by apply orderedPairs_elem|done]. }
      eexists. split; [|exact Hin].
      apply nil_if_empty_nonempty. intros E. by rewrite E in Hin.
  - intros n (k & Hk & Hfin)%keep_first_elem%list_elem_of_omap.
    exists k. split; [|done]. by apply sortedKeys_elem.
Qed.

Lemma Build_partition_witness :
  ∃ n, finalName example_whitelist "col1__in" = Some n
       ∧ n ∈ fragmentColumns example_whitelist example_params.
Proof.
  destruct (Build_partition example_whitelist example_params
              (mkFilter "table_name.col1 IN (?,?) AND col2 <> ?"
                 ["1"; "2"; "1"])
              (Some {["col3" := ["val"]]})) as [H _];
    [vm_compute; reflexivity|].
  destruct (H "col1__in" ["1"; "2"]) as [[H' _]|H']; [reflexivity| |exact H'].
  vm_compute in H'. discriminate.
Defined.

Lemma valid_fold_fresh wl ps V :
  NoDup (V.*1 ++ (omap (entryOf wl) ps).*1) →
  fold_left (valid_step wl) ps V = V ++ omap (entryOf wl) ps.
Proof.
  revert V. induction ps as [|p ps IH]; intros V Hnd.
  - by rewrite app_nil_r.
  - cbn [fold_left omap list_omap] in *. rewrite valid_step_entry.
    destruct (entryOf wl p) as [[n fp]|]; [|by apply IH]. simpl.
    cbn [fmap list_fmap] in Hnd. simpl in Hnd.
    rewrite Omap_Set_fresh.
    + rewrite IH; [by rewrite <- app_assoc|].
      rewrite fmap_app, <- app_assoc. done.
    + apply NoDup_app in Hnd as (_ & Hdisj & _). intros Hin.
      apply (Hdisj n Hin), list_elem_of_here.
Qed.

Lemma entryOf_names wl ps :
  Forall (fun p => parses p.1 p.2) ps →
  (omap (entryOf wl) ps).*1 = omap (finalName wl) ps.*1.
Proof.
  induction 1 as [|p ps [fp Hfp] _ IH]; [done|].
  cbn [omap list_omap fmap list_fmap]. unfold entryOf at 1, finalName at 1.
  rewrite Hfp. destruct (splitParamName_inr _ _ _ Hfp) as (-> & _ & _).
  destruct (wl !! colOf p.1); [|exact IH].
  rewrite fmap_cons. cbn [fmap option_fmap option_map fst]. by rewrite IH.
Qed.

Lemma entryOf_values wl ps :
  Forall (fun p => parses p.1 p.2) ps →
  concat (Values ∘ snd <$> omap (entryOf wl) ps)
  = concat (snd <$> filter (fun p => is_Some (wl !! colOf p.1)) ps).
Proof.
  induction 1 as [|p ps [fp Hfp] _ IH]; [done|].
  cbn [omap list_omap]. unfold entryOf at 1. rewrite Hfp.
  destruct (splitParamName_inr _ _ _ Hfp) as (Hn & Hv & _). rewrite Hn.
  destruct (wl !! colOf p.1) as [f|] eqn:Hwl.
  - rewrite filter_cons_True by (by rewrite Hwl).
    cbn [fmap list_fmap concat]. simpl. by rewrite IH, Hv.
  - rewrite filter_cons_False by (rewrite Hwl; by intros [? ?]). done.
Qed.

Lemma NoDup_omap_finalName wl (ks : list string) :
  NoDup ks →
  (∀ k1 k2 n, k1 ∈ ks → k2 ∈ ks →
     finalName wl k1 = Some n → finalName wl k2 = Some n → k1 = k2) →
  NoDup (omap (finalName wl) ks).
Proof.
  induction 1 as [|k ks Hk Hnd IH]; intros Hinj; [constructor|].
  cbn [omap list_omap].
  assert (NoDup (omap (finalName wl) ks)) as IH'.
  { apply IH. intros k1 k2 n H1 H2. apply Hinj; by apply list_elem_of_further. }
  destruct (finalName wl k) as [n|] eqn:Hn; [|done].
  constructor; [|done]. intros (k' & Hk' & Hn')%list_elem_of_omap.
  assert (k = k') as <-; [|done].
  apply (Hinj k k' n); [apply list_elem_of_here| |done..].
  by apply list_elem_of_further.
Qed.

(** X12: on a nil error, when no two keys of the request have the same final
    column name, nothing is overwritten.  The fragment has one predicate for
    every key with a whitelisted column, in ascending key order, and the
    bind values are the values of those keys, in that order, all of them. *)
Theorem Build_no_collision wl m F R :
  Build wl m = (F, R, None) →
  (∀ k1 k2 n, is_Some (m !! k1) → is_Some (m !! k2) →
     finalName wl k1 = Some n → finalName wl k2 = Some n → k1 = k2) →
  fragmentColumns wl m = omap (finalName wl) (sortedKeys m)
  ∧ PlaceholderValues F
    = concat (snd <$> filter (fun p => is_Some (wl !! colOf p.1))
                        (orderedPairs m))
  ∧ SqlFilters F
    = join " AND " (Sql ∘ snd <$> omap (entryOf wl) (orderedPairs m)).
Proof.
  intros (Hm & Hfe & -> & _ & HV)%Build_nil_error Hinj.
  apply firstError_None in Hfe.
  assert (fold_left (valid_step wl) (orderedPairs m) []
          = omap (entryOf wl) (orderedPairs m)) as Hfold.
  { rewrite valid_fold_fresh; [done|]. simpl.
    rewrite entryOf_names, orderedPairs_keys by done.
    apply NoDup_omap_finalName; [apply sortedKeys_NoDup|].
    intros k1 k2 n H1%sortedKeys_elem H2%sortedKeys_elem. by apply Hinj. }
  unfold fragmentColumns, Omap_Pairs.
  rewrite HV, buildQueryFilters_closed, Hfold. simpl. split_and!.
  - by rewrite entryOf_names, orderedPairs_keys.
  - by apply entryOf_values.
  - done.
Qed.

Lemma Build_no_collision_witness :
  ["1"; "2"; "1"]
  = concat (snd <$> filter (fun p => is_Some (example_whitelist !! colOf p.1))
                      (orderedPairs example_params)).
Proof.
  destruct (Build_no_collision example_whitelist example_params
              (mkFilter "table_name.col1 IN (?,?) AND col2 <> ?"
                 ["1"; "2"; "1"])
              (Some {["col3" := ["val"]]})) as (_ & H & _);
    [vm_compute; reflexivity| |exact H].
  assert (∀ k, is_Some (example_params !! k) →
               k = "col1__in" ∨ k = "col2__not_in" ∨ k = "col3") as Hkeys.
  { intros k [vs Hk]. unfold example_params in Hk.
    apply lookup_insert_Some in Hk as [[<- _]|[_ Hk]]; [auto|].
    apply lookup_insert_Some in Hk as [[<- _]|[_ Hk]]; [auto|].
    apply lookup_insert_Some in Hk as [[<- _]|[_ Hk]]; [auto|].
    by rewrite lookup_empty in Hk. }
  intros k1 k2 n H1%Hkeys H2%Hkeys.
  destruct H1 as [->|[->| ->]], H2 as [->|[->| ->]]; try done;
    vm_compute; congruence.
Defined.

(** *** The values never reach the fragment *)

Section values.
Context (g : string → string).

Lemma newFilterParam_values name op vs :
  newFilterParam name op (g <$> vs)
  = match newFilterParam name op vs with
    | inl e => inl e
    | inr fp => inr (map_param g fp)
    end.
Proof.
  unfold newFilterParam. rewrite length_fmap.
  destruct (length vs =? 0); [done|].
  destruct (String.eqb op ""); [done|].
  destruct (String.eqb op OPERATOR_LIKE && (1 <? length vs)); [done|].
  by destruct (OPERATORS !! op).
Qed.

Lemma splitParamName_values k vs :
  splitParamName k (g <$> vs)
  = match splitParamName k vs with
    | inl e => inl e
    | inr fp => inr (map_param g fp)
    end.
Proof.
  unfold splitParamName.
  destruct (negb (Contains k OPERATOR_SEPARATOR));
    [apply newFilterParam_values|].
  destruct (negb (length (Split k OPERATOR_SEPARATOR) =? 2)); [done|].
  destruct (OPERATORS !! _); [apply newFilterParam_values|done].
Qed.

Lemma Sql_values fp : Sql (map_param g fp) = Sql fp.
Proof.
  unfold Sql, map_param, buildPhrase. simpl.
  by rewrite !buildPhrase_loop, !length_fmap.
Qed.

Lemma sortedKeys_values m : sortedKeys (map_values g m) = sortedKeys m.
Proof.
  apply sortedKeys_unique; [apply sortedKeys_sorted|apply sortedKeys_NoDup|].
  intros k. unfold map_values.
  by rewrite sortedKeys_elem, lookup_fmap, fmap_is_Some.
Qed.

Lemma orderedPairs_values m :
  orderedPairs (map_values g m) = map_pair g <$> orderedPairs m.
Proof.
  unfold orderedPairs. rewrite sortedKeys_values, <- list_fmap_compose.
  apply list_fmap_ext. intros _ k _. unfold map_pair, map_values. simpl.
  rewrite lookup_fmap. by destruct (m !! k).
Qed.

Lemma firstError_values ps : firstError (map_pair g <$> ps) = firstError ps.
Proof.
  induction ps as [|[k vs] ps IH]; [done|].
  cbn [fmap list_fmap firstError]. unfold map_pair at 1. simpl.
  rewrite splitParamName_values. by destruct (splitParamName k vs).
Qed.

Lemma okPrefix_values ps : okPrefix (map_pair g <$> ps) = map_pair g <$> okPrefix ps.
Proof.
  induction ps as [|[k vs] ps IH]; [done|].
  cbn [fmap list_fmap okPrefix]. unfold map_pair at 1. simpl.
  rewrite splitParamName_values.
  destruct (splitParamName k vs); [done|].
  cbn [fmap list_fmap]. by rewrite IH.
Qed.

Lemma Omap_Set_values k fp (V : Omap filterParam) :
  Omap_Set k (map_param g fp) (map_entry g <$> V) = map_entry g <$> Omap_Set k fp V.
Proof.
  induction V as [|[k' d] V IH]; [done|].
  cbn [fmap list_fmap Omap_Set]. unfold map_entry at 1. simpl.
  destruct (String.eqb k' k); [done|].
  cbn [fmap list_fmap]. by rewrite IH.
Qed.

Lemma valid_fold_values wl ps V :
  fold_left (valid_step wl) (map_pair g <$> ps) (map_entry g <$> V)
  = map_entry g <$> fold_left (valid_step wl) ps V.
Proof.
  revert V. induction ps as [|[k vs] ps IH]; intros V; [done|].
  cbn [fmap list_fmap fold_left]. rewrite <- IH. f_equal.
  unfold valid_step, map_pair. simpl. rewrite splitParamName_values.
  destruct (splitParamName k vs) as [|fp]; [done|]. simpl.
  destruct (wl !! Name fp) as [f|]; [|done].
  by rewrite <- Omap_Set_values.
Qed.

Lemma removed_fold_values wl ps R :
  fold_left (removed_step wl) (map_pair g <$> ps) (map_values g R)
  = map_values g (fold_left (removed_step wl) ps R).
Proof.
  revert R. induction ps as [|[k vs] ps IH]; intros R; [done|].
  cbn [fmap list_fmap fold_left]. rewrite <- IH. f_equal.
  unfold removed_step, map_pair. simpl. rewrite splitParamName_values.
  destruct (splitParamName k vs) as [|fp]; [done|]. simpl.
  destruct (wl !! Name fp) as [f|]; [done|].
  unfold map_values. by rewrite fmap_insert.
Qed.

Lemma buildQueryFilters_values (V : Omap filterParam) :
  buildQueryFilters (map_entry g <$> V)
  = mkFilter (SqlFilters (buildQueryFilters V))
      (g <$> PlaceholderValues (buildQueryFilters V)).
Proof.
  rewrite !buildQueryFilters_closed. simpl. f_equal.
  - f_equal. rewrite <- list_fmap_compose. apply list_fmap_ext.
    intros _ e _. simpl. apply Sql_values.
  - induction V as [|e V IH]; [done|].
    cbn [fmap list_fmap concat] in *. simpl. by rewrite fmap_app, IH.
Qed.

Lemma nil_if_empty_values R :
  nil_if_empty (map_values g R) = option_map (map_values g) (nil_if_empty R).
Proof.
  unfold nil_if_empty, map_values. rewrite map_size_fmap.
  by destruct (size R =? 0).
Qed.

(** X13: the values of the request never reach the fragment, and nothing
    [Build] decides depends on what the values are.  With any function
    applied to every value of the request, [Build] returns the same
    fragment and the same error, and the bind values and the rejected
    parameters are those of the original request with that function
    applied. *)
Theorem Build_values_independent wl m :
  Build wl (map_values g m) = map_result g (Build wl m).
Proof.
  destruct (decide (m = ∅)) as [->|Hm].
  { unfold map_values. rewrite fmap_empty. by rewrite !Build_empty. }
  assert (map_values g m ≠ ∅) as Hm'.
  { unfold map_values. by rewrite fmap_empty_iff. }
  rewrite !Build_closed by done. simpl.
  rewrite orderedPairs_values, firstError_values, okPrefix_values.
  assert (∀ ps, fold_left (removed_step wl) (map_pair g <$> ps) ∅
                = map_values g (fold_left (removed_step wl) ps ∅)) as Hrem.
  { intros ps. by rewrite <- removed_fold_values. }
  assert (fold_left (valid_step wl) (map_pair g <$> orderedPairs m) []
          = map_entry g <$> fold_left (valid_step wl) (orderedPairs m) []) as Hval
    by apply (valid_fold_values wl _ []).
  rewrite !Hrem, Hval.
  unfold map_result.
  destruct (firstError (orderedPairs m)); simpl; [done|].
  by rewrite buildQueryFilters_values, nil_if_empty_values.
Qed.

End values.

(** *** Error messages *)

(** X14: what the message of an error of [Build] tells.  For an empty
    request it is the fixed text of
    [errAttemptedToPassEmptyFilteringParams]; for a key of wrong shape or
    with an unknown operator it contains that key of the request in full;
    for a key without values or with several values under [like] it is one
    of two fixed texts, which name no key. *)
Theorem Build_error_message wl m F R e :
  Build wl m = (F, R, Some e) →
  (m = ∅
   ∧ Error e = "getValidQueryParams not accepting empty filtering values")
  ∨ (∃ k pre post, is_Some (m !! k) ∧ Error e = pre +:+ k +:+ post
                   ∧ (e = ErrWrongQueryParamName k
                      ∨ ∃ op, e = ErrWrongOperator op k))
  ∨ (∃ k, m !! k = Some []
          ∧ Error e = "passed empty values to filterParam")
  ∨ (∃ k vs, m !! k = Some vs ∧ 1 < length vs
             ∧ Error e = "like operator only supports single value").
Proof.
  intros HB. destruct (decide (m = ∅)) as [->|Hm].
  { rewrite Build_empty in HB. left. by simplify_eq. }
  rewrite Build_closed in HB by done. simpl in HB.
  destruct (firstError (orderedPairs m)) as [e'|] eqn:Hfe; [|done].
  assert (e' = e) as -> by (by simplify_eq). clear HB.
  apply firstError_Some in Hfe as (pre & k & vs & post & Hps & _ & He).
  assert (m !! k = Some vs) as Hk.
  { apply orderedPairs_elem. rewrite Hps, elem_of_app, elem_of_cons. auto. }
  apply splitParamName_inl_cases in He
    as [[-> _]|[(c & op & -> & _ & _)|[(-> & -> & _)|(-> & Hlen & _)]]].
  - right; left. exists k, "wrong filtering param name: ", "".
    split_and!; [by eexists| |by left].
    simpl. by rewrite str_app_nil_r.
  - right; left.
    exists k, ("wrong filtering operator name '" +:+ op
               +:+ "' in parameter '"), "' ".
    split_and!; [by eexists| |right; by exists op].
    simpl. by rewrite !str_app_assoc.
  - right; right; left. by exists k.
  - right; right; right. by exists k, vs.
Qed.

Lemma Build_error_message_witness :
  ∃ k pre post,
    is_Some (({["col1__between" := ["1"]]} : url_Values) !! k)
    ∧ "wrong filtering operator name 'between' in parameter 'col1__between' "
      = pre +:+ k +:+ post.
Proof.
  destruct (Build_error_message whitelist {["col1__between" := ["1"]]}
              Filter_zero (Some ∅)
              (ErrWrongOperator "between" "col1__between"))
    as [[H _]|[(k & pre & post & H1 & H2 & _)|[(k & _ & H)|(k & vs & _ & _ & H)]]];
    [by vm_compute| | | |].
  - exfalso. by apply (map_non_empty_singleton (M:=gmap string)) in H.
  - by exists k, pre, post.
  - vm_compute in H. discriminate.
  - vm_compute in H. discriminate.
Defined.

(** *** The ordered map is consumed *)

(** X15: the loop of [getValidQueryParams] deletes from the ordered map it
    was given every key it has processed.  After a run without error the
    map is empty; after an error it holds the pair that did not parse and
    the pairs after it, the pairs before it being those processed. *)
Theorem getValidQueryParams_consumes wl (om : Omap (list string)) V R :
  match scanPairs wl (Omap_Pairs om) (mkScanState om V R) with
  | inr st => st_getParams st = []
  | inl (st, e) =>
      om = okPrefix om ++ st_getParams st
      ∧ ∃ k vs rest, st_getParams st = (k, vs) :: rest
                     ∧ splitParamName k vs = inl e
  end.
Proof.
  unfold Omap_Pairs. revert V R.
  induction om as [|[k vs] om IH]; intros V R; [done|].
  cbn [scanPairs okPrefix].
  destruct (splitParamName k vs) as [e|fp] eqn:E.
  - simpl. split; [done|]. by exists k, vs, om.
  - destruct (wl !! Name fp) as [f|]; simpl; rewrite String.eqb_refl;
      match goal with |- context [scanPairs wl om (mkScanState om ?V' ?R')] =>
        specialize (IH V' R');
        destruct (scanPairs wl om (mkScanState om V' R')) as [[st e]|st]
      end; try done;
      destruct IH as [Hom Hrest]; (split; [by rewrite <- Hom|done]).
Qed.

(** *** A key that ends in the separator *)

(** X16: a key made of a column and the separator with nothing after it
    has the empty operator.  [newFilterParam] reads an empty operator as
    the implicit IN, but [splitParamName] looks the operator up in the
    table first, so such a key is an [ErrWrongOperator] with the empty
    operator and the full key, whatever its values. *)
Theorem splitParamName_trailing_separator c vs :
  Contains c OPERATOR_SEPARATOR = false →
  last_byte c ≠ Some "_"%char →
  splitParamName (c +:+ OPERATOR_SEPARATOR) vs
  = inl (ErrWrongOperator "" (c +:+ OPERATOR_SEPARATOR))
  ∧ (vs ≠ [] → newFilterParam c "" vs
               = inr (mkFilterParam c QUERY_TOKEN_IN vs)).
Proof.
  intros Hc Hend. split.
  - apply (splitParamName_wrong_operator _ c "" vs); [|done].
    pose proof (Split_col_op c "" Hc Hend eq_refl) as H.
    by rewrite str_app_nil_r in H.
  - intros Hvs. unfold newFilterParam. by destruct vs.
Qed.

Lemma splitParamName_trailing_separator_witness :
  splitParamName "col1__" ["1"] = inl (ErrWrongOperator "" "col1__").
Proof.
  destruct (splitParamName_trailing_separator "col1" ["1"]) as [H _];
    [reflexivity|discriminate|exact H].
Defined.

(** *** Asking again without the rejected parameters *)

Lemma sortedKeys_filter (Pk : string → Prop) `{!∀ k, Decision (Pk k)} m :
  sortedKeys (filter (fun kv : string * list string => Pk kv.1) m)
  = filter Pk (sortedKeys m).
Proof.
  apply sortedKeys_unique.
  - eapply StronglySorted_sublist; [apply sublist_filter|].
    apply sortedKeys_sorted.
  - apply NoDup_filter, sortedKeys_NoDup.
  - intros k. rewrite list_elem_of_filter, sortedKeys_elem. split.
    + intros [Hk [vs Hvs]]. exists vs. by apply map_lookup_filter_Some.
    + intros [vs [Hvs Hk]%map_lookup_filter_Some]. eauto.
Qed.

Lemma orderedPairs_filter (Pk : string → Prop) `{!∀ k, Decision (Pk k)} m :
  orderedPairs (filter (fun kv : string * list string => Pk kv.1) m)
  = filter (fun p => Pk p.1) (orderedPairs m).
Proof.
  unfold orderedPairs. rewrite sortedKeys_filter.
  induction (sortedKeys m) as [|k ks IH]; [done|].
  rewrite filter_cons. cbn [fmap list_fmap]. rewrite filter_cons. simpl.
  case_decide as Hk; cbn [fmap list_fmap]; rewrite IH; [|done].
  f_equal. f_equal. rewrite map_lookup_filter.
  destruct (m !! k) as [vs|]; [|done]. simpl.
  by rewrite option_guard_True.
Qed.

Lemma valid_fold_filter_whitelisted wl (ps : list (string * list string)) V :
  fold_left (valid_step wl)
    (filter (fun p => is_Some (wl !! colOf p.1)) ps) V
  = fold_left (valid_step wl) ps V.
Proof.
  revert V. induction ps as [|p ps IH]; intros V; [done|].
  rewrite filter_cons. case_decide as Hp; cbn [fold_left]; [done|].
  rewrite IH, valid_step_rejected; [done|].
  by apply eq_None_not_Some.
Qed.

(** X17: asking again without the rejected parameters changes nothing.
    After a nil error, [Build] on the parameters of the request whose
    column is whitelisted returns the same [Filter], nil rejected
    parameters and a nil error; when no column of the request is
    whitelisted the [Filter] was the empty fragment with no bind values. *)
Theorem Build_without_rejected wl m F R :
  Build wl m = (F, R, None) →
  (whitelisted_part wl m ≠ ∅ →
   Build wl (whitelisted_part wl m) = (F, None, None))
  ∧ (whitelisted_part wl m = ∅ → F = mkFilter "" []).
Proof.
  intros (Hm & Hfe & -> & _ & _)%Build_nil_error.
  apply firstError_None in Hfe.
  assert (orderedPairs (whitelisted_part wl m)
          = filter (fun p => is_Some (wl !! colOf p.1)) (orderedPairs m))
    as Hps
    by (unfold whitelisted_part;
        apply (@orderedPairs_filter (fun k => is_Some (wl !! colOf k))
                 (fun k => is_Some_dec (wl !! colOf k)) m)).
  rewrite <- (valid_fold_filter_whitelisted wl (orderedPairs m)), <- Hps.
  split.
  - intros Hm'. rewrite Build_closed by done. simpl.
    assert (Forall (fun p => parses p.1 p.2)
              (orderedPairs (whitelisted_part wl m))) as Hfe'.
    { rewrite Hps. rewrite Forall_forall in *.
      intros p [_ Hp]%list_elem_of_filter. by apply Hfe. }
    rewrite (proj2 (firstError_None _) Hfe').
    rewrite removed_fold_whitelisted.
    + by rewrite nil_if_empty_empty.
    + rewrite Hps. apply Forall_forall.
      by intros p [Hp _]%list_elem_of_filter.
  - intros E. rewrite (proj2 (orderedPairs_nil _) E). done.
Qed.

Lemma Build_without_rejected_witness :
  Build example_whitelist (whitelisted_part example_whitelist example_params)
  = (mkFilter "table_name.col1 IN (?,?) AND col2 <> ?" ["1"; "2"; "1"],
     None, None).
Proof.
  destruct (Build_without_rejected example_whitelist example_params
              (mkFilter "table_name.col1 IN (?,?) AND col2 <> ?"
                 ["1"; "2"; "1"])
              (Some {["col3" := ["val"]]})) as [H _];
    [vm_compute; reflexivity|].
  apply H. intros E.
  assert (whitelisted_part example_whitelist example_params !! "col1__in"
          = None) as H' by (rewrite E; apply lookup_empty).
  vm_compute in H'. discriminate.
Defined.

End coverage.
